(** * Mitiri chat: the socket.io relay of server.js and the client's handleSend

    A shallow embedding of [server.js] (the in-memory stores [users],
    [messages], [typingUsers], the seven [socket.on] callbacks and the
    routes [POST /upload], [GET /api/messages], [GET /api/users]) and of
    the client in [App.jsx] ([joinChat], [handleSend], [handleTyping],
    [handleReaction], the socket listeners, the effect that marks
    messages as seen, the private chat filter and the 'Seen by' line).

    Conventions of the embedding.
    - A handler is a function from the server's stores to the new stores
      and the list of socket.io calls it made, in program order.
    - [Date.now()] and [new Date().toISOString()] are inputs of a handler
      (a [Clock]); nothing is assumed about them.
    - Numbers are integers ([Z]); strings are Rocq strings (UTF-8 bytes).
    - [users] and [typingUsers] are objects keyed by socket ids whose
      property order is observable ([Object.values], [Object.entries]):
      they are insertion-ordered association lists ([JsObject]).
      Event payloads are finite maps of own properties ([gmap]).
    - [msg.reactions] is an object created by [{}] and indexed by a
      string the client chooses: its own properties are a finite map
      ([gmap]) to numbers and strings, and a name it does not own is read
      from [Object.prototype] ([Js.prototype], with the texts that Node
      prints for the built-in functions). *)

From Stdlib Require Import ZArith NArith Ascii String Lia.
From stdpp Require Import base strings pretty gmap option list.

Local Open Scope string_scope.
Local Open Scope list_scope.
Local Open Scope Z_scope.

(** ** JavaScript objects with string keys, in property order *)

Module JsObject.
Section Obj.
Context {V : Type}.
Implicit Types (o : list (string * V)) (k : string) (v : V).

(** [o[k]] *)
Fixpoint get o k : option V :=
  match o with
  | [] => None
  | (k', v) :: o' => if decide (k' = k) then Some v else get o' k
  end.

(** [o[k] = v]: an existing property keeps its place, a new one goes last. *)
Fixpoint set o k v : list (string * V) :=
  match o with
  | [] => [(k, v)]
  | (k', v') :: o' =>
      if decide (k' = k) then (k, v) :: o' else (k', v') :: set o' k v
  end.

(** [delete o[k]] *)
Definition delete o k : list (string * V) := filter (λ kv, kv.1 ≠ k) o.

(** [Object.keys(o)], [Object.values(o)], [Object.entries(o)] *)
Definition keys o : list string := o.*1.
Definition values o : list V := o.*2.
Definition entries o : list (string * V) := o.
End Obj.
End JsObject.

(** [x || d] on a string that may be [undefined]: the empty string is falsy. *)
Definition or_else (x : option string) (d : string) : string :=
  match x with
  | Some s => if decide (s = "") then d else s
  | None => d
  end.

(** ** Data of server.js *)

(** [{ username, room, id: socket.id }] *)
Module User.
Record t := mk { username : string; room : string; id : string }.
#[global] Instance eq_dec : EqDecision t.
Proof. solve_decision. Defined.
End User.

(** The values that reading a property of [msg.reactions] can give. *)
Module Js.
Inductive value :=
  | undefined
  | num (n : Z)
  | str (s : string)
  | obj (text : string).   (* an object or a function; [text] is [String] of it *)
#[global] Instance eq_dec : EqDecision value.
Proof. solve_decision. Defined.

(** The built-in functions that are properties of [Object.prototype]. *)
Definition builtins : list string :=
  [ "__defineGetter__"; "__defineSetter__"; "hasOwnProperty";
    "__lookupGetter__"; "__lookupSetter__"; "isPrototypeOf";
    "propertyIsEnumerable"; "toString"; "valueOf"; "toLocaleString" ].

(** [o[k]] for an object [o] made by [{}] that has no own property [k]:
    ['__proto__'] reads as [Object.prototype] itself, ['constructor'] as
    the function [Object], the name of a built-in as that function, and
    any other name as [undefined]. *)
Definition prototype (k : string) : value :=
  if decide (k = "__proto__") then obj "[object Object]"
  else if decide (k = "constructor")
  then obj "function Object() { [native code] }"
  else if decide (k ∈ builtins)
  then obj ("function " +:+ k +:+ "() { [native code] }")
  else undefined.

(** [(x || 0) + 1]: [undefined], [0] and [''] are falsy; [+] adds two
    numbers and otherwise appends ['1'] to the string of its left side. *)
Definition incr (x : value) : value :=
  match x with
  | undefined => num 1
  | num n => num (n + 1)
  | str s => if decide (s = "") then num 1 else str (s +:+ "1")
  | obj text => str (text +:+ "1")
  end.
End Js.

(** The message object built by the [send_message] handler; [reactions]
    holds the own properties of the object. *)
Module Msg.
Record t := mk {
  id : Z;
  sender : string;
  senderId : string;
  room : string;
  timestamp : string;
  text : string;
  image : string;
  reactions : gmap string Js.value;
  seenBy : list string
}.
#[global] Instance eq_dec : EqDecision t.
Proof. solve_decision. Defined.

Definition with_reactions (r : gmap string Js.value) (m : t) : t :=
  mk (id m) (sender m) (senderId m) (room m) (timestamp m) (text m)
     (image m) r (seenBy m).
Definition with_seenBy (l : list string) (m : t) : t :=
  mk (id m) (sender m) (senderId m) (room m) (timestamp m) (text m)
     (image m) (reactions m) l.

(** [msg.reactions[emoji]]: the own property when there is one, else
    what [Object.prototype] has under that name. *)
Definition get (emoji : string) (m : t) : Js.value :=
  match reactions m !! emoji with
  | Some v => v
  | None => Js.prototype emoji
  end.

(** The reaction count of [emoji] on the message: the number that
    [msg.reactions] holds under that name as an own property (what
    [Object.entries(msg.reactions)] lists for the client), 0 when it
    holds no number there. *)
Definition count (emoji : string) (m : t) : Z :=
  match reactions m !! emoji with
  | Some (Js.num n) => n
  | _ => 0
  end.
End Msg.

(** The message object built by the [private_message] handler; [message]
    and [image] are copied from the payload and may be [undefined]. *)
Module Priv.
Record t := mk {
  id : Z;
  sender : string;
  senderId : string;
  message : option string;
  image : option string;
  isPrivate : bool;
  timestamp : string
}.
#[global] Instance eq_dec : EqDecision t.
Proof. solve_decision. Defined.
End Priv.

(** The two clock readings a handler may take. *)
Record Clock := mkClock { now : Z; iso : string }.

(** An event payload object: its own string-valued properties. *)
Abbreviation payload := (gmap string string).

(** Events a client emits and the server listens to. *)
Inductive inbound :=
  | user_join (username room : string)
  | send_message (data : payload)
  | private_message (data : payload)
  | typing (isTyping : bool)
  | message_reaction (messageId : Z) (emoji : string)
  | disconnect
  | message_seen (messageId : Z).

(** Events the server emits. *)
Module Out.
Inductive t :=
  | user_list (roomUsers : list User.t)
  | user_joined (username id : string)
  | receive_message (msg : Msg.t)
  | private_message (msg : Priv.t)
  | typing_users (roomTyping : list string)
  | user_left (username : string)
  | message_seen_update (messageId : Z) (seenBy : list string).
#[global] Instance eq_dec : EqDecision t.
Proof. solve_decision. Defined.
End Out.

(** The socket.io calls of a handler running for the socket [sid]. *)
Inductive action :=
  | socket_join (sid room : string)                       (* socket.join(room) *)
  | io_to_emit (room : string) (e : Out.t)                (* io.to(room).emit *)
  | socket_to_emit (sid : string) (to : option string) (e : Out.t)
                                                          (* socket.to(to).emit *)
  | socket_emit (sid : string) (e : Out.t).               (* socket.emit *)

#[global] Instance action_eq_dec : EqDecision action.
Proof. solve_decision. Defined.

(** The in-memory store. *)
Record Server := mkServer {
  users : list (string * User.t);
  messages : list Msg.t;
  typingUsers : list (string * string)
}.

#[global] Instance Server_eq_dec : EqDecision Server.
Proof. solve_decision. Defined.

Definition init : Server := mkServer [] [] [].

Definition with_users (u : list (string * User.t)) (s : Server) : Server :=
  mkServer u (messages s) (typingUsers s).
Definition with_messages (m : list Msg.t) (s : Server) : Server :=
  mkServer (users s) m (typingUsers s).
Definition with_typingUsers (t : list (string * string)) (s : Server) : Server :=
  mkServer (users s) (messages s) t.

(** [Object.values(users).filter(u => u.room === room)] *)
Definition roomUsers (us : list (string * User.t)) (room : string) : list User.t :=
  filter (λ u, User.room u = room) (JsObject.values us).

(** [Object.entries(typingUsers).filter(([id]) => users[id]?.room === room)
      .map(([_, name]) => name)] *)
Definition roomTyping (us : list (string * User.t)) (ty : list (string * string))
    (room : string) : list string :=
  (filter (λ kv, User.room <$> JsObject.get us kv.1 = Some room)
          (JsObject.entries ty)).*2.

(** [messages.find((m) => m.id === messageId)], with the index found. *)
Definition find_message (messageId : Z) (ms : list Msg.t) : option (nat * Msg.t) :=
  list_find (λ m, Msg.id m = messageId) ms.

(** [msg.reactions[emoji] = (msg.reactions[emoji] || 0) + 1].  The value
    assigned is a number or a string.  Under ['__proto__'], unless the
    object owns a property of that name, the assignment runs the setter
    inherited from [Object.prototype], which ignores a value that is not
    an object; under any other name the value becomes, or replaces, an
    own property. *)
Definition add_reaction (emoji : string) (msg : Msg.t) : Msg.t :=
  let v := Js.incr (Msg.get emoji msg) in
  if decide (emoji = "__proto__" ∧ Msg.reactions msg !! emoji = None) then msg
  else Msg.with_reactions (<[emoji := v]> (Msg.reactions msg)) msg.

(** [msg.seenBy.push(name)] *)
Definition add_seenBy (name : string) (msg : Msg.t) : Msg.t :=
  Msg.with_seenBy (Msg.seenBy msg ++ [name]) msg.

(** [messages.shift()] *)
Definition shift (ms : list Msg.t) : list Msg.t := drop 1 ms.

(** [messages.push(msg); if (messages.length > 200) messages.shift();] *)
Definition push_capped (msg : Msg.t) (ms : list Msg.t) : list Msg.t :=
  let pushed := ms ++ [msg] in
  if decide (200 < length pushed)%nat then shift pushed else pushed.

(** ** The handlers of [io.on('connection', (socket) => ...)] *)

Section Handlers.
Variable sid : string.   (* socket.id *)
Variable clk : Clock.

Definition on_user_join (username room : string) (s : Server)
    : Server * list action :=
  let users' := JsObject.set (users s) sid (User.mk username room sid) in
  (with_users users' s,
   [ socket_join sid room;
     io_to_emit room (Out.user_list (roomUsers users' room));
     io_to_emit room (Out.user_joined username sid) ]).

Definition new_message (user : User.t) (data : payload) : Msg.t :=
  Msg.mk (now clk) (User.username user) sid (User.room user) (iso clk)
         (or_else (data !! "text") "") (or_else (data !! "image") "")
         ∅ [User.username user].

Definition on_send_message (data : payload) (s : Server)
    : Server * list action :=
  match JsObject.get (users s) sid with
  | None => (s, [])
  | Some user =>
      let msg := new_message user data in
      (with_messages (push_capped msg (messages s)) s,
       [ io_to_emit (User.room user) (Out.receive_message msg) ])
  end.

Definition on_private_message (data : payload) (s : Server)
    : Server * list action :=
  let sender := JsObject.get (users s) sid in
  let msg :=
    Priv.mk (now clk) (or_else (User.username <$> sender) "Anonymous") sid
            (data !! "message") (data !! "image") true (iso clk) in
  (s, [ socket_to_emit sid (data !! "to") (Out.private_message msg);
        socket_emit sid (Out.private_message msg) ]).

Definition on_typing (isTyping : bool) (s : Server) : Server * list action :=
  match JsObject.get (users s) sid with
  | None => (s, [])
  | Some user =>
      let typingUsers' :=
        if isTyping
        then JsObject.set (typingUsers s) sid (User.username user)
        else JsObject.delete (typingUsers s) sid in
      (with_typingUsers typingUsers' s,
       [ io_to_emit (User.room user)
           (Out.typing_users
              (roomTyping (users s) typingUsers' (User.room user))) ])
  end.

Definition on_message_reaction (messageId : Z) (emoji : string) (s : Server)
    : Server * list action :=
  match find_message messageId (messages s) with
  | Some (i, msg) =>
      let msg' := add_reaction emoji msg in
      (with_messages (<[i := msg']> (messages s)) s,
       [ io_to_emit (Msg.room msg) (Out.receive_message msg') ])
  | None => (s, [])
  end.

Definition on_disconnect (s : Server) : Server * list action :=
  match JsObject.get (users s) sid with
  | Some user =>
      let users' := JsObject.delete (users s) sid in
      let typingUsers' := JsObject.delete (typingUsers s) sid in
      (mkServer users' (messages s) typingUsers',
       [ io_to_emit (User.room user)
           (Out.user_list (roomUsers users' (User.room user)));
         io_to_emit (User.room user) (Out.user_left (User.username user)) ])
  | None => (s, [])
  end.

Definition on_message_seen (messageId : Z) (s : Server)
    : Server * list action :=
  match JsObject.get (users s) sid, find_message messageId (messages s) with
  | Some user, Some (i, msg) =>
      if decide (User.username user ∈ Msg.seenBy msg) then (s, [])
      else
        let msg' := add_seenBy (User.username user) msg in
        (with_messages (<[i := msg']> (messages s)) s,
         [ io_to_emit (Msg.room msg)
             (Out.message_seen_update messageId (Msg.seenBy msg')) ])
  | _, _ => (s, [])
  end.

(** The server's reaction to one event of the socket [sid]. *)
Definition handle (ev : inbound) (s : Server) : Server * list action :=
  match ev with
  | user_join username room => on_user_join username room s
  | send_message data => on_send_message data s
  | private_message data => on_private_message data s
  | typing isTyping => on_typing isTyping s
  | message_reaction messageId emoji => on_message_reaction messageId emoji s
  | disconnect => on_disconnect s
  | message_seen messageId => on_message_seen messageId s
  end.
End Handlers.

(** An arrival: the socket, the clock readings of its handler, the event. *)
Definition arrival : Type := string * Clock * inbound.

Definition step (s : Server) (a : arrival) : Server * list action :=
  handle a.1.1 a.1.2 a.2 s.

(** The handlers run to completion one after the other. *)
Fixpoint run (evs : list arrival) (s : Server) : Server * list action :=
  match evs with
  | [] => (s, [])
  | a :: evs' =>
      let r := step s a in
      let r' := run evs' r.1 in
      (r'.1, r.2 ++ r'.2)
  end.

(** The stores the server can be in. *)
Inductive reachable : Server → Prop :=
  | reachable_init : reachable init
  | reachable_step s a : reachable s → reachable (step s a).1.

(** ** The client's [handleSend] (App.jsx) *)

Module Client.

(** [String.prototype.trim] removes ECMAScript WhiteSpace and
    LineTerminator code points from both ends.  On UTF-8 bytes these are
    TAB LF VT FF CR SP, U+00A0, U+1680, U+2000..U+200A, U+2028, U+2029,
    U+202F, U+205F, U+3000 and U+FEFF. *)
Definition ws1 (a : N) : bool := bool_decide (a ∈ [9; 10; 11; 12; 13; 32]%N).
Definition ws2 (a b : N) : bool := bool_decide ((a, b) = (194, 160)%N).
Definition ws3 (a b c : N) : bool :=
  bool_decide ((a, b) = (226, 128)%N ∧ (128 ≤ c ≤ 138)%N)
  || bool_decide ((a, b, c) ∈ [ (225, 154, 128); (226, 128, 168);
                                (226, 128, 169); (226, 128, 175);
                                (226, 129, 159); (227, 128, 128);
                                (239, 187, 191) ]%N).

(** Drop leading white space; [w2] and [w3] recognise the two- and
    three-byte code points in the order the bytes are met. *)
Fixpoint strip (w2 : N → N → bool) (w3 : N → N → N → bool) (l : list N)
    : list N :=
  match l with
  | [] => []
  | a :: r1 =>
      if ws1 a then strip w2 w3 r1
      else match r1 with
           | [] => l
           | b :: r2 =>
               if w2 a b then strip w2 w3 r2
               else match r2 with
                    | [] => l
                    | c :: r3 => if w3 a b c then strip w2 w3 r3 else l
                    end
           end
  end.

Definition bytes (s : string) : list N := N_of_ascii <$> list_ascii_of_string s.
Definition of_bytes (l : list N) : string :=
  string_of_list_ascii (ascii_of_N <$> l).

Definition trimStart (l : list N) : list N := strip ws2 ws3 l.
Definition trimEnd (l : list N) : list N :=
  reverse (strip (λ b a, ws2 a b) (λ c b a, ws3 a b c) (reverse l)).

(** [s.trim()] *)
Definition trim (s : string) : string := of_bytes (trimEnd (trimStart (bytes s))).

(** What [await fetch(...)], [await res.json()] and [data.url] gave:
    [None] when the [try] block threw, otherwise [data.url], itself
    [undefined] when the reply carries no [url]. *)
Definition upload_outcome : Type := option (option string).

(** [handleSend], as the events it emits on the socket.  [input] is the
    text box, [file] the selected file, [selectedUser] the private chat
    partner. *)
Definition handleSend (input : string) (file : option string)
    (upload : upload_outcome) (selectedUser : option User.t) : list inbound :=
  if bool_decide (trim input = "") && bool_decide (file = None) then []
  else
    let imageUrl : option string :=
      match file with
      | Some _ => match upload with Some url => url | None => Some "" end
      | None => Some ""
      end in
    let messagePayload : payload :=
      match imageUrl with
      | Some url => {[ "text" := input; "image" := url ]}
      | None => {[ "text" := input ]}
      end in
    [ match selectedUser with
      | Some u => private_message (<["to" := User.id u]> messagePayload)
      | None => send_message messagePayload
      end;
      typing false ].

End Client.

(** ** The HTTP routes of server.js *)

(** [GET /api/messages]:
    [room ? messages.filter((m) => m.room === room) : messages];
    [room] is the query parameter, absent or a string. *)
Definition api_messages (room : option string) (s : Server) : list Msg.t :=
  match room with
  | Some r =>
      if decide (r = "") then messages s
      else filter (λ m, Msg.room m = r) (messages s)
  | None => messages s
  end.

(** [GET /api/users]: [Object.values(users)] *)
Definition api_users (s : Server) : list User.t := JsObject.values (users s).

Module Upload.
(** [res.status(400).json({ error })] or [res.json({ url })] *)
Inductive reply :=
  | bad_request (error : string)
  | ok (url : string).

(** multer's [filename] callback: [`${Date.now()}-${file.originalname}`] *)
Definition filename (clk : Clock) (originalname : string) : string :=
  pretty (now clk) +:+ "-" +:+ originalname.

(** [POST /upload]; [file] is the original name of the uploaded file,
    absent when the request carries none. *)
Definition post (clk : Clock) (file : option string) : reply :=
  match file with
  | None => bad_request "No file uploaded"
  | Some originalname => ok ("/uploads/" +:+ filename clk originalname)
  end.
End Upload.

(** ** The rest of the client (App.jsx) *)

Module App.

(** [joinChat]: the events emitted and the new value of [joined]. *)
Definition joinChat (username room : string) (joined : bool)
    : list inbound * bool :=
  if bool_decide (Client.trim username = "") then ([], joined)
  else ([user_join username room], true).


(** [handleReaction] *)
Definition handleReaction (messageId : Z) (emoji : string) : list inbound :=
  [message_reaction messageId emoji].

(** What the listeners do besides updating state. *)
Inductive effect :=
  | playSound
  | notification (title body : string).

(** [showNotification]: nothing unless permission was granted. *)
Definition showNotification (granted : bool) (title body : string)
    : list effect :=
  if granted then [notification title body] else [].

(** [socket.on('receive_message', ...)]: [self] is [socket.id]. *)
Definition on_receive_message (self : string) (granted : bool) (msg : Msg.t)
    (prev : list Msg.t) : list Msg.t * list effect :=
  (prev ++ [msg],
   if decide (Msg.senderId msg ≠ self)
   then playSound
        :: showNotification granted
             ("💬 New message from " +:+ Msg.sender msg)
             (or_else (Some (Msg.text msg)) "Sent a file")
   else []).

(** [socket.on('private_message', ...)] *)
Definition on_private_message (msg : Priv.t) (prev : list Priv.t)
    : list Priv.t :=
  prev ++ [msg].

(** [socket.on('message_seen_update', ...)]:
    [prev.map((m) => m.id === messageId ? { ...m, seenBy } : m)] *)
Definition on_message_seen_update (messageId : Z) (seenBy : list string)
    (prev : list Msg.t) : list Msg.t :=
  (λ m, if decide (Msg.id m = messageId) then Msg.with_seenBy seenBy m else m)
    <$> prev.

(** What the listeners make of an event for the [messages] state: only
    [receive_message] and [message_seen_update] have a listener that
    sets it. *)
Definition messages_on (self : string) (granted : bool) (e : Out.t)
    (prev : list Msg.t) : list Msg.t :=
  match e with
  | Out.receive_message msg => (on_receive_message self granted msg prev).1
  | Out.message_seen_update messageId seenBy =>
      on_message_seen_update messageId seenBy prev
  | _ => prev
  end.

(** The effect that marks messages as seen: one [message_seen] for every
    message of the current room that another socket sent. *)
Definition seen_effect (self room : string) (messages : list Msg.t)
    : list inbound :=
  (λ m, message_seen (Msg.id m))
    <$> filter (λ m, Msg.room m = room ∧ Msg.senderId m ≠ self) messages.

(** The messages listed in the private chat with [selectedUser]. *)
Definition private_panel (self : string) (selectedUser : User.t)
    (privateMessages : list Priv.t) : list Priv.t :=
  filter (λ m, (Priv.senderId m = User.id selectedUser ∨ Priv.senderId m = self)
               ∧ Priv.isPrivate m = true)
         privateMessages.

(** The line under a message: shown when [seenBy] has more than one
    name, as [msg.seenBy.filter((u) => u !== msg.sender).join(', ')]. *)
Definition seen_by_line (msg : Msg.t) : option string :=
  if decide (1 < length (Msg.seenBy msg))%nat
  then Some ("Seen by: "
             +:+ String.concat ", "
                   (filter (λ u, u ≠ Msg.sender msg) (Msg.seenBy msg)))
  else None.

End App.

(** ** Notions used in the statements *)

(** What holds of every store the server can be in. *)
Record wf (s : Server) : Prop := mk_wf {
  wf_users_keys : NoDup (JsObject.keys (users s));
  wf_users_id : ∀ k u, (k, u) ∈ users s → User.id u = k;
  wf_typing_keys : NoDup (JsObject.keys (typingUsers s));
  wf_bound : (length (messages s) ≤ 200)%nat;
  wf_seenBy : ∀ m, m ∈ messages s → NoDup (Msg.seenBy m);
  wf_sender : ∀ m, m ∈ messages s → Msg.sender m ∈ Msg.seenBy m
}.

(** The arrival is a reaction. *)
Definition is_reaction (a : arrival) : Prop :=
  match a.2 with message_reaction _ _ => True | _ => False end.

#[global] Instance inbound_eq_dec : EqDecision inbound.
Proof. solve_decision. Defined.

(** The arrival is a send; the number of sends among [evs]. *)
Definition is_send (a : arrival) : Prop :=
  match a.2 with send_message _ => True | _ => False end.

#[global] Instance is_send_dec a : Decision (is_send a).
Proof. unfold is_send. destruct a.2; apply _. Defined.

Definition sends (evs : list arrival) : nat := length (filter is_send evs).

(** The arrival is a reaction to message [messageId] with [emoji]. *)
Definition reacts_to (messageId : Z) (emoji : string) (a : arrival) : Prop :=
  a.2 = message_reaction messageId emoji.

#[global] Instance reacts_to_dec messageId emoji a :
  Decision (reacts_to messageId emoji a).
Proof. unfold reacts_to. apply _. Defined.

(** What [msg.reactions] can own: never ['__proto__']; under a name that
    [Object.prototype] defines a string that is not empty; under any
    other name a count of at least 1. *)
Definition reactions_ok (m : Msg.t) : Prop :=
  ∀ emoji v, Msg.reactions m !! emoji = Some v →
    emoji ≠ "__proto__" ∧
    match Js.prototype emoji with
    | Js.undefined => ∃ n, v = Js.num n ∧ 1 ≤ n
    | _ => ∃ t, v = Js.str t ∧ t ≠ ""
    end.

(** The message owns no property [emoji], or a number. *)
Definition numeric (emoji : string) (m : Msg.t) : Prop :=
  match Msg.reactions m !! emoji with
  | None | Some (Js.num _) => True
  | _ => False
  end.

(** A message, and a store, with the count of [emoji] (on the message at
    index [i]) left out. *)
Definition forget_msg (emoji : string) (m : Msg.t) : Msg.t :=
  Msg.with_reactions (delete emoji (Msg.reactions m)) m.

Definition forget (i : nat) (emoji : string) (ms : list Msg.t) : list Msg.t :=
  alter (forget_msg emoji) i ms.

(** The message an arrival stores: the new message of a send from a
    socket that has joined. *)
Definition created (us : list (string * User.t)) (a : arrival) : option Msg.t :=
  match a.2 with
  | send_message data =>
      (λ user, new_message a.1.1 a.1.2 user data) <$> JsObject.get us a.1.1
  | _ => None
  end.

(** The message is listed by [GET /api/messages] for [room]. *)
Definition listed (room : option string) (m : Msg.t) : Prop :=
  match room with
  | Some r => r = "" ∨ Msg.room m = r
  | None => True
  end.

#[global] Instance listed_dec room m : Decision (listed room m).
Proof. destruct room; simpl; apply _. Defined.

(** The events that the [io.to(room).emit] calls among [acts] address
    to [room]. *)
Definition broadcast_to (room : string) (acts : list action) : list Out.t :=
  omap (λ act, match act with
               | io_to_emit r e => if decide (r = room) then Some e else None
               | _ => None
               end) acts.

(** The [messages] state of a client after the listeners ran on the
    events [es], in order. *)
Definition client_messages (self : string) (granted : bool) (es : list Out.t)
    (prev : list Msg.t) : list Msg.t :=
  foldl (λ ms e, App.messages_on self granted e ms) prev es.

(** A message without its reactions and its [seenBy]. *)
Definition bare (m : Msg.t) : Msg.t :=
  Msg.with_reactions ∅ (Msg.with_seenBy [] m).

(** The string has no ['-']. *)
Fixpoint no_dash (s : string) : Prop :=
  match s with
  | EmptyString => True
  | String c s' => c ≠ "-"%char ∧ no_dash s'
  end.

(** The ids of the stored messages increase strictly along the store. *)
Definition ids_increase (ms : list Msg.t) : Prop :=
  ∀ i j mi mj, (i < j)%nat → ms !! i = Some mi → ms !! j = Some mj →
               Msg.id mi < Msg.id mj.

(** ** Scenarios *)

Module Scenario.
Definition at_ (t : Z) : Clock := mkClock t "2025-01-01T00:00:00.000Z".
(** alice joins General and sends "hi" at tick 1000. *)
Definition alice_sent : Server :=
  (run [ ("a1", at_ 999, user_join "alice" "General");
         ("a1", at_ 1000, send_message {[ "text" := "hi"; "image" := "" ]}) ]
       init).1.
End Scenario.

Module SameTick.
(** alice joins, then sends twice while [Date.now()] reads 1000. *)
Definition arrivals : list arrival :=
  [ ("a1", Scenario.at_ 999, user_join "alice" "General");
    ("a1", Scenario.at_ 1000, send_message {[ "text" := "one"; "image" := "" ]});
    ("a1", Scenario.at_ 1000, send_message {[ "text" := "two"; "image" := "" ]}) ].
Definition store : Server := (run arrivals init).1.
End SameTick.

Module EmptySend.
Definition alice_joined : Server :=
  (run [("a1", Scenario.at_ 999, user_join "alice" "General")] init).1.
(** The message the server makes of an empty payload. *)
Definition stored : Msg.t :=
  Msg.mk 1000 "alice" "a1" "General" "2025-01-01T00:00:00.000Z" "" "" ∅ ["alice"].
End EmptySend.

Module Eviction.
Definition send (t : Z) (text : string) : arrival :=
  ("a1", Scenario.at_ t, send_message {[ "text" := text; "image" := "" ]}).
(** alice joins and sends 201 messages: the first two within tick 1000,
    the other 199 at ticks 1001 to 1199. *)
Definition arrivals : list arrival :=
  [ ("a1", Scenario.at_ 999, user_join "alice" "General");
    send 1000 "first"; send 1000 "second" ]
  ++ ((λ t, send t "later") <$> seqZ 1001 199).
Definition store : Server := (run arrivals init).1.
End Eviction.

(** The store is one log for all rooms. *)
Module CrossRoom.
(** alice fills the store with 200 messages in General; bob is in Random. *)
Definition arrivals : list arrival :=
  [ ("a1", Scenario.at_ 1, user_join "alice" "General");
    ("b1", Scenario.at_ 2, user_join "bob" "Random") ]
  ++ ((λ t, ("a1", Scenario.at_ t,
             send_message {[ "text" := "hello"; "image" := "" ]}))
        <$> seqZ 1000 200).
Definition store : Server := (run arrivals init).1.
Definition bob : User.t := User.mk "bob" "Random" "b1".
Definition oldest : Msg.t :=
  Msg.mk 1000 "alice" "a1" "General" "2025-01-01T00:00:00.000Z" "hello" ""
         ∅ ["alice"].
End CrossRoom.

Module Typing.
(** alice and bob are in General and both are typing. *)
Definition store : Server :=
  (run [ ("a1", Scenario.at_ 1, user_join "alice" "General");
         ("b1", Scenario.at_ 2, user_join "bob" "General");
         ("a1", Scenario.at_ 3, typing true);
         ("b1", Scenario.at_ 4, typing true) ] init).1.
End Typing.

Module Seen.
(** alice and bob are in General; alice has sent one message at tick 1000. *)
Definition store : Server :=
  (run [ ("a1", Scenario.at_ 1, user_join "alice" "General");
         ("b1", Scenario.at_ 2, user_join "bob" "General");
         ("a1", Scenario.at_ 1000,
          send_message {[ "text" := "hi"; "image" := "" ]}) ] init).1.
End Seen.

Module Reactions.
(** bob reacts twice with a thumb and once with a heart to alice's
    message, and once to an id that finds nothing. *)
Definition arrivals : list arrival :=
  [ ("b1", Scenario.at_ 1001, message_reaction 1000 "👍");
    ("b1", Scenario.at_ 1002, message_reaction 1000 "❤️");
    ("c9", Scenario.at_ 1003, message_reaction 7 "👍");
    ("a1", Scenario.at_ 1004, message_reaction 1000 "👍") ].
Definition sent : Msg.t :=
  Msg.mk 1000 "alice" "a1" "General" "2025-01-01T00:00:00.000Z" "hi" ""
         ∅ ["alice"].
End Reactions.

Module Backfill.
(** alice joins and sends 250 messages, at ticks 1000 to 1249. *)
Definition sends : list arrival :=
  (λ t, ("a1", Scenario.at_ t,
         send_message {[ "text" := "hello"; "image" := "" ]}))
    <$> seqZ 1000 250.
End Backfill.

Module Rejoin.
(** alice and bob are in General, bob is typing; bob then joins Random
    under the name bobby. *)
Definition before : Server :=
  (run [ ("a1", Scenario.at_ 1, user_join "alice" "General");
         ("b1", Scenario.at_ 2, user_join "bob" "General");
         ("b1", Scenario.at_ 3, typing true) ] init).1.
End Rejoin.

Module SeenByTwo.
(** alice sent a message in General; bob and carol marked it seen. *)
Definition arrivals : list arrival :=
  [ ("b1", Scenario.at_ 1001, message_seen 1000);
    ("c1", Scenario.at_ 1002, user_join "carol" "General");
    ("c1", Scenario.at_ 1003, message_seen 1000) ].
Definition store : Server := (run arrivals Seen.store).1.
Definition seen : Msg.t :=
  add_seenBy "carol" (add_seenBy "bob" Reactions.sent).
End SeenByTwo.

Module Shadowed.
(** alice sent "one" and "two" within tick 1000; bob then joins General. *)
Definition store : Server :=
  (run [("b1", Scenario.at_ 1001, user_join "bob" "General")]
       SameTick.store).1.
Definition one : Msg.t :=
  Msg.mk 1000 "alice" "a1" "General" "2025-01-01T00:00:00.000Z" "one" ""
         ∅ ["alice"].
Definition two : Msg.t :=
  Msg.mk 1000 "alice" "a1" "General" "2025-01-01T00:00:00.000Z" "two" ""
         ∅ ["alice"].
(** Two reactions to the id the two messages share. *)
Definition reactions : list arrival :=
  [ ("b1", Scenario.at_ 1002, message_reaction 1000 "👍");
    ("a1", Scenario.at_ 1003, message_reaction 1000 "👍") ].
End Shadowed.

(** ** Facts about [JsObject] *)

Section ObjFacts.
Context {V : Type}.
Implicit Types (o : list (string * V)) (k : string) (v : V).

Lemma get_set_eq o k v : JsObject.get (JsObject.set o k v) k = Some v.
Proof.
  induction o as [|[k' v'] o IH]; simpl.
  - by rewrite decide_True.
  - destruct (decide (k' = k)) as [->|Hne]; simpl.
    + by rewrite decide_True.
    + by rewrite decide_False.
Qed.

Lemma get_set_ne o k k' v :
  k ≠ k' → JsObject.get (JsObject.set o k v) k' = JsObject.get o k'.
Proof.
  intros Hne. induction o as [|[k0 v0] o IH]; simpl.
  - by rewrite decide_False.
  - destruct (decide (k0 = k)) as [->|Hk]; simpl.
    + by rewrite !decide_False.
    + by rewrite IH.
Qed.

Lemma elem_of_set o k v k' v' :
  (k', v') ∈ JsObject.set o k v → (k' = k ∧ v' = v) ∨ (k', v') ∈ o.
Proof.
  induction o as [|[k0 v0] o IH]; simpl.
  - intros Hin%list_elem_of_singleton. simplify_eq. by left.
  - destruct (decide (k0 = k)) as [->|Hk].
    + intros [Heq|Hin]%elem_of_cons; [simplify_eq; by left|].
      right. by right.
    + intros [Heq|Hin]%elem_of_cons.
      * simplify_eq. right. by left.
      * destruct (IH Hin) as [?|?]; [by left|right; by right].
Qed.

Lemma keys_set o k v :
  JsObject.keys (JsObject.set o k v) =
  if decide (k ∈ JsObject.keys o) then JsObject.keys o
  else JsObject.keys o ++ [k].
Proof.
  unfold JsObject.keys. induction o as [|[k0 v0] o IH]; csimpl.
  - done.
  - destruct (decide (k0 = k)) as [->|Hk]; csimpl.
    + by rewrite decide_True by left.
    + rewrite IH. destruct (decide (k ∈ o.*1)) as [Hin|Hin].
      * by rewrite decide_True by (by right).
      * rewrite decide_False; [done|].
        intros [?|?]%elem_of_cons; congruence.
Qed.

Lemma NoDup_keys_set o k v :
  NoDup (JsObject.keys o) → NoDup (JsObject.keys (JsObject.set o k v)).
Proof.
  intros Hnd. rewrite keys_set. case_decide; [done|].
  apply NoDup_app. split_and!; [done| |apply NoDup_singleton].
  intros x Hx ->%list_elem_of_singleton. done.
Qed.

Lemma get_None_keys o k : JsObject.get o k = None ↔ k ∉ JsObject.keys o.
Proof.
  unfold JsObject.keys. induction o as [|[k0 v0] o IH]; csimpl.
  - split; [intros _; apply not_elem_of_nil|done].
  - destruct (decide (k0 = k)) as [->|Hk].
    + split; [done|]. intros []. by left.
    + rewrite IH, not_elem_of_cons.
      split; [intros ?; split; [congruence|done]|by intros [_ ?]].
Qed.

Lemma get_Some_elem o k v : JsObject.get o k = Some v → (k, v) ∈ o.
Proof.
  induction o as [|[k0 v0] o IH]; csimpl; [done|].
  destruct (decide (k0 = k)) as [->|Hk].
  - intros [= ->]. by left.
  - intros H. right. by apply IH.
Qed.

Lemma elem_get o k v :
  NoDup (JsObject.keys o) → (k, v) ∈ o → JsObject.get o k = Some v.
Proof.
  unfold JsObject.keys. induction o as [|[k0 v0] o IH]; csimpl.
  - by intros _ ?%elem_of_nil.
  - intros [Hk0 Hnd]%NoDup_cons [Heq|Hin]%elem_of_cons.
    + simplify_eq. by rewrite decide_True.
    + rewrite decide_False; [by apply IH|].
      intros ->. apply Hk0. by apply (list_elem_of_fmap_2 fst _ (k, v)).
Qed.

Lemma elem_of_delete o k k' v' :
  (k', v') ∈ JsObject.delete o k ↔ k' ≠ k ∧ (k', v') ∈ o.
Proof. unfold JsObject.delete. by rewrite list_elem_of_filter. Qed.

Lemma get_delete_eq o k : JsObject.get (JsObject.delete o k) k = None.
Proof.
  apply get_None_keys. unfold JsObject.keys.
  intros ([k' v'] & -> & [Hne _]%elem_of_delete)%list_elem_of_fmap. done.
Qed.

Lemma get_delete_ne o k k' :
  k ≠ k' → JsObject.get (JsObject.delete o k) k' = JsObject.get o k'.
Proof.
  intros Hne. unfold JsObject.delete.
  induction o as [|[k0 v0] o IH]; [done|].
  rewrite filter_cons. csimpl. destruct (decide (k0 ≠ k)) as [Hk|Hk]; csimpl.
  - by rewrite IH.
  - apply dec_stable in Hk as ->. by rewrite decide_False.
Qed.

Lemma NoDup_keys_delete o k :
  NoDup (JsObject.keys o) → NoDup (JsObject.keys (JsObject.delete o k)).
Proof.
  unfold JsObject.keys, JsObject.delete.
  induction o as [|[k0 v0] o IH]; [done|].
  intros [Hk0 Hnd]%NoDup_cons. rewrite filter_cons. csimpl.
  case_decide; [|by apply IH]. csimpl. apply NoDup_cons. split; [|by apply IH].
  intros ([k' v'] & Hk' & [_ Hin]%list_elem_of_filter)%list_elem_of_fmap.
  csimpl in Hk'. subst k'. apply Hk0.
  by apply (list_elem_of_fmap_2 fst _ (k0, v')).
Qed.
End ObjFacts.

(** ** Facts about the handlers *)

Lemma find_message_Some messageId ms i m :
  find_message messageId ms = Some (i, m) →
  ms !! i = Some m ∧ Msg.id m = messageId ∧
  ∀ j m', ms !! j = Some m' → (j < i)%nat → Msg.id m' ≠ messageId.
Proof. unfold find_message. by rewrite list_find_Some. Qed.

Lemma find_message_None messageId ms :
  find_message messageId ms = None ↔ ∀ m, m ∈ ms → Msg.id m ≠ messageId.
Proof. unfold find_message. by rewrite list_find_None, Forall_forall. Qed.

Lemma elem_of_insert_inv (ms : list Msg.t) i m m' :
  m' ∈ <[i := m]> ms → m' = m ∨ m' ∈ ms.
Proof.
  intros [j Hj]%list_elem_of_lookup.
  destruct (decide (i = j)) as [->|Hne].
  - destruct (decide (j < length ms)%nat) as [Hlt|Hge].
    + rewrite list_lookup_insert_eq in Hj by done. left. congruence.
    + rewrite list_insert_ge in Hj by lia. right.
      apply list_elem_of_lookup. eauto.
  - rewrite list_lookup_insert_ne in Hj by done. right.
    apply list_elem_of_lookup. eauto.
Qed.

Lemma length_push_capped msg ms :
  length (push_capped msg ms) =
  if decide (200 ≤ length ms)%nat then length ms else S (length ms).
Proof.
  unfold push_capped, shift. simpl.
  repeat case_decide; rewrite ?length_drop, ?length_app in *; simpl in *; lia.
Qed.

Lemma elem_of_push_capped msg ms m :
  m ∈ push_capped msg ms → m ∈ ms ∨ m = msg.
Proof.
  unfold push_capped, shift. simpl. intros Hm.
  assert (m ∈ ms ++ [msg]) as Hin.
  { case_decide; [|done]. by apply (subseteq_drop 1). }
  apply elem_of_app in Hin as [?|?%list_elem_of_singleton]; auto.
Qed.

(** The steps of a proof by cases on the event handled. *)
Ltac handler_cases sid clk ev :=
  unfold step; simpl; destruct ev; simpl;
  [ unfold on_user_join
  | unfold on_send_message; destruct (JsObject.get _ sid) as [?user|] eqn:?Hu
  | unfold on_private_message
  | unfold on_typing; destruct (JsObject.get _ sid) as [?user|] eqn:?Hu
  | unfold on_message_reaction;
    destruct (find_message _ _) as [[?i ?msg]|] eqn:?Hf
  | unfold on_disconnect; destruct (JsObject.get _ sid) as [?user|] eqn:?Hu
  | unfold on_message_seen; destruct (JsObject.get _ sid) as [?user|] eqn:?Hu;
    [ destruct (find_message _ _) as [[?i ?msg]|] eqn:?Hf;
      [ case_decide | ] | ] ];
  simpl.

(** A reaction changes nothing of a message but its [reactions]. *)
Lemma add_reaction_with emoji m :
  ∃ r, add_reaction emoji m = Msg.with_reactions r m.
Proof.
  unfold add_reaction. case_decide.
  - exists (Msg.reactions m). by destruct m.
  - by eexists.
Qed.

Lemma bare_add_reaction emoji m : bare (add_reaction emoji m) = bare m.
Proof. by destruct (add_reaction_with emoji m) as [r ->]. Qed.

Lemma add_reaction_seenBy emoji m :
  Msg.seenBy (add_reaction emoji m) = Msg.seenBy m.
Proof. by destruct (add_reaction_with emoji m) as [r ->]. Qed.

Lemma add_reaction_id emoji m : Msg.id (add_reaction emoji m) = Msg.id m.
Proof. by destruct (add_reaction_with emoji m) as [r ->]. Qed.

Lemma add_reaction_sender emoji m :
  Msg.sender (add_reaction emoji m) = Msg.sender m.
Proof. by destruct (add_reaction_with emoji m) as [r ->]. Qed.

Lemma wf_init : wf init.
Proof.
  split; simpl; try apply NoDup_nil_2; try lia;
    intros; by match goal with H : _ ∈ [] |- _ => apply elem_of_nil in H end.
Qed.

Lemma wf_step s a : wf s → wf (step s a).1.
Proof.
  intros [Hk Hid Ht Hb Hs Hsd]. destruct a as [[sid clk] ev].
  unfold step; simpl. destruct ev; simpl.
  - (* user_join *)
    split; simpl; try done.
    + by apply NoDup_keys_set.
    + intros k u [[-> ->]|Hin]%elem_of_set; [done|by apply Hid].
  - (* send_message *)
    unfold on_send_message. destruct (JsObject.get _ _) as [user|]; [|done].
    split; simpl; try done.
    + rewrite length_push_capped. case_decide; lia.
    + intros m [Hin| ->]%elem_of_push_capped; [by apply Hs|].
      simpl. apply NoDup_singleton.
    + intros m [Hin| ->]%elem_of_push_capped; [by apply Hsd|].
      simpl. by left.
  - (* private_message *) done.
  - (* typing *)
    unfold on_typing. destruct (JsObject.get _ _) as [user|]; [|done].
    split; simpl; try done.
    destruct isTyping; [by apply NoDup_keys_set|by apply NoDup_keys_delete].
  - (* message_reaction *)
    unfold on_message_reaction.
    destruct (find_message _ _) as [[i msg]|] eqn:Hf; [|done].
    apply find_message_Some in Hf as (Hi & _ & _).
    split; simpl; try done.
    + by rewrite length_insert.
    + intros m [->|Hin]%elem_of_insert_inv; [|by apply Hs].
      rewrite add_reaction_seenBy. apply Hs. apply list_elem_of_lookup. eauto.
    + intros m [->|Hin]%elem_of_insert_inv; [|by apply Hsd].
      rewrite add_reaction_seenBy, add_reaction_sender.
      apply Hsd. apply list_elem_of_lookup. eauto.
  - (* disconnect *)
    unfold on_disconnect. destruct (JsObject.get _ _) as [user|]; [|done].
    split; simpl; try done.
    + by apply NoDup_keys_delete.
    + intros k u [_ Hin]%elem_of_delete. by apply Hid.
    + by apply NoDup_keys_delete.
  - (* message_seen *)
    unfold on_message_seen. destruct (JsObject.get _ _) as [user|]; [|done].
    destruct (find_message _ _) as [[i msg]|] eqn:Hf; [|done].
    case_decide as Hseen; [done|].
    apply find_message_Some in Hf as (Hi & _ & _).
    split; simpl; try done.
    + by rewrite length_insert.
    + intros m [->|Hin]%elem_of_insert_inv; [|by apply Hs].
      simpl. apply NoDup_app. split_and!.
      * apply Hs. apply list_elem_of_lookup. eauto.
      * intros x Hx ->%list_elem_of_singleton. done.
      * apply NoDup_singleton.
    + intros m [->|Hin]%elem_of_insert_inv; [|by apply Hsd].
      simpl. apply elem_of_app. left. apply Hsd.
      apply list_elem_of_lookup. eauto.
Qed.

Lemma reachable_wf s : reachable s → wf s.
Proof. induction 1; [apply wf_init|by apply wf_step]. Qed.

Lemma reachable_run evs s : reachable s → reachable (run evs s).1.
Proof.
  revert s. induction evs as [|a evs IH]; intros s Hs; simpl; [done|].
  apply IH. by constructor.
Qed.

(** ** Events of a connection that has not joined *)

Section Unjoined.
Variables (sid : string) (clk : Clock) (s : Server).
Hypothesis Hunjoined : JsObject.get (users s) sid = None.



Lemma unjoined_seen messageId :
  handle sid clk (message_seen messageId) s = (s, []).
Proof. simpl. unfold on_message_seen. by rewrite Hunjoined. Qed.


End Unjoined.

(** The reaction handler never looks at the connection it runs for. *)
Lemma reaction_any_socket sid sid' clk clk' messageId emoji s :
  handle sid clk (message_reaction messageId emoji) s =
  handle sid' clk' (message_reaction messageId emoji) s.
Proof. done. Qed.

Lemma reaction_found sid clk messageId emoji s i msg :
  find_message messageId (messages s) = Some (i, msg) →
  handle sid clk (message_reaction messageId emoji) s =
  let msg' := add_reaction emoji msg in
  (with_messages (<[i := msg']> (messages s)) s,
   [ io_to_emit (Msg.room msg) (Out.receive_message msg') ]).
Proof. intros Hf. simpl. unfold on_message_reaction. by rewrite Hf. Qed.

Lemma reaction_not_found sid clk messageId emoji s :
  find_message messageId (messages s) = None →
  handle sid clk (message_reaction messageId emoji) s = (s, []).
Proof. intros Hf. simpl. unfold on_message_reaction. by rewrite Hf. Qed.




(** ** Message ids *)

(** A send of a joined connection stores and broadcasts [new_message],
    whose id is the handler's reading of [Date.now()]. *)
Lemma send_joined sid clk data s user :
  JsObject.get (users s) sid = Some user →
  handle sid clk (send_message data) s =
  (with_messages (push_capped (new_message sid clk user data) (messages s)) s,
   [ io_to_emit (User.room user)
       (Out.receive_message (new_message sid clk user data)) ]).
Proof. intros Hu. simpl. unfold on_send_message. by rewrite Hu. Qed.

Lemma new_message_id sid clk user data :
  Msg.id (new_message sid clk user data) = now clk.
Proof. done. Qed.

(** C2.  Message ids are the handler's [Date.now()]: two sends handled
    within one tick store two messages under one id, and a lookup by that
    id only ever finds the first. *)
Theorem same_tick_sends_share_an_id :
  Msg.id <$> messages SameTick.store = [1000; 1000] ∧
  Msg.text <$> messages SameTick.store = ["one"; "two"] ∧
  Msg.text ∘ snd <$> find_message 1000 (messages SameTick.store) = Some "one".
Proof. by split_and!. Qed.

(** ** Empty sends *)

(** C3 as stated fails: the server stores and broadcasts a send that has
    neither text nor media, here the payload [{}] and the payload
    [{text: '', image: ''}] that [handleSend] emits after a failed upload. *)
Lemma empty_send_is_stored :
  messages EmptySend.alice_joined = [] ∧
  handle "a1" (Scenario.at_ 1000) (send_message ∅) EmptySend.alice_joined =
  (with_messages [EmptySend.stored] EmptySend.alice_joined,
   [ io_to_emit "General" (Out.receive_message EmptySend.stored) ]) ∧
  Client.handleSend "" (Some "photo.png") None None =
  [ send_message {[ "text" := ""; "image" := "" ]}; typing false ] ∧
  handle "a1" (Scenario.at_ 1000)
    (send_message {[ "text" := ""; "image" := "" ]}) EmptySend.alice_joined =
  (with_messages [EmptySend.stored] EmptySend.alice_joined,
   [ io_to_emit "General" (Out.receive_message EmptySend.stored) ]).
Proof. by split_and!. Qed.

(** [trim] on plain text, on a string of TAB, LF, U+00A0, U+2003 and
    U+3000 only, and on a euro sign followed by a space. *)
Example trim_examples :
  Client.trim "  hi  there " = "hi  there" ∧
  Client.trim
    (Client.of_bytes [9; 10; 194; 160; 226; 128; 131; 227; 128; 128]%N) = "" ∧
  Client.trim (Client.of_bytes [226; 130; 172; 32]%N)
  = Client.of_bytes [226; 130; 172]%N.
Proof. by split_and!. Qed.

(** A text message to the room, and a picture sent privately to bob. *)
Example handleSend_examples :
  Client.handleSend "hi" None None None
  = [ send_message {[ "text" := "hi"; "image" := "" ]}; typing false ] ∧
  Client.handleSend "" (Some "cat.png") (Some (Some "/uploads/1-cat.png"))
    (Some (User.mk "bob" "General" "b1"))
  = [ private_message
        {[ "text" := ""; "image" := "/uploads/1-cat.png"; "to" := "b1" ]};
      typing false ].
Proof. by split_and!. Qed.

Lemma handleSend_blank input upload selectedUser :
  Client.trim input = "" →
  Client.handleSend input None upload selectedUser = [].
Proof.
  intros Hblank. unfold Client.handleSend.
  by rewrite !bool_decide_eq_true_2.
Qed.

Lemma or_else_empty (x : option string) :
  x = None ∨ x = Some "" → or_else x "" = "".
Proof. by intros [->| ->]. Qed.

(** C3 (as amended).  The empty send is refused by the client: when the
    text box is blank after trimming and no file is selected, [handleSend]
    emits nothing.  The server's [send_message] handler checks the sender
    only: for a joined connection it stores [new_message] (dropping the
    oldest message when the store would exceed 200) and broadcasts it to
    the sender's room whatever the payload holds; absent or empty [text]
    and [image] are stored as empty strings. *)
Theorem empty_send_refused_by_client_only input upload selectedUser
    sid clk data s user :
  Client.trim input = "" →
  JsObject.get (users s) sid = Some user →
  Client.handleSend input None upload selectedUser = [] ∧
  handle sid clk (send_message data) s =
  (with_messages (push_capped (new_message sid clk user data) (messages s)) s,
   [ io_to_emit (User.room user)
       (Out.receive_message (new_message sid clk user data)) ]) ∧
  (data !! "text" = None ∨ data !! "text" = Some "" →
   Msg.text (new_message sid clk user data) = "") ∧
  (data !! "image" = None ∨ data !! "image" = Some "" →
   Msg.image (new_message sid clk user data) = "").
Proof.
  intros Hblank Hu. split_and!.
  - by apply handleSend_blank.
  - by apply send_joined.
  - apply or_else_empty.
  - apply or_else_empty.
Qed.

Lemma empty_send_refused_by_client_only_witness :
  Client.trim "   " = "" ∧
  JsObject.get (users EmptySend.alice_joined) "a1"
  = Some (User.mk "alice" "General" "a1") ∧
  Client.handleSend "   " None None None = [] ∧
  messages (handle "a1" (Scenario.at_ 1000) (send_message ∅)
              EmptySend.alice_joined).1 = [EmptySend.stored].
Proof.
  pose proof (empty_send_refused_by_client_only "   " None None "a1"
                (Scenario.at_ 1000) ∅ EmptySend.alice_joined
                (User.mk "alice" "General" "a1") eq_refl eq_refl)
    as (Hc & Hs & _ & _).
  split_and!; [reflexivity|reflexivity|exact Hc|].
  rewrite Hs. reflexivity.
Defined.

(** ** The bounded store *)

Lemma push_capped_below msg ms :
  (length ms < 200)%nat → push_capped msg ms = ms ++ [msg].
Proof.
  intros Hlt. unfold push_capped. simpl.
  rewrite decide_False; [done|]. rewrite length_app. simpl. lia.
Qed.

Lemma push_capped_full msg m0 ms :
  (200 ≤ length (m0 :: ms))%nat → push_capped msg (m0 :: ms) = ms ++ [msg].
Proof.
  intros Hfull. unfold push_capped, shift. simpl in *.
  rewrite decide_True; [done|]. rewrite length_app. simpl. lia.
Qed.

(** C4.  After 201 sends the store holds 200 messages and the first one
    is gone, yet a reaction to the first message's id is not a no-op when
    a later message was created in the same tick: the lookup finds that
    message, counts the reaction on it and broadcasts it. *)
Theorem reaction_to_evicted_id_hits_same_tick_message :
  length Eviction.arrivals = 202%nat ∧
  length (messages Eviction.store) = 200%nat ∧
  Msg.text <$> messages Eviction.store !! 0%nat = Some "second" ∧
  Msg.text ∘ snd <$> find_message 1000 (messages Eviction.store)
  = Some "second" ∧
  (∃ msg',
     Msg.text msg' = "second" ∧ Msg.count "👍" msg' = 1 ∧
     handle "a1" (Scenario.at_ 1200) (message_reaction 1000 "👍") Eviction.store
     = (with_messages (<[0%nat := msg']> (messages Eviction.store))
                      Eviction.store,
        [ io_to_emit "General" (Out.receive_message msg') ])).
Proof.
  split_and!; try by vm_compute.
  eexists. split_and!; [| |vm_compute; reflexivity]; reflexivity.
Qed.

Lemma send_full_store sid clk data s user m0 ms :
  JsObject.get (users s) sid = Some user →
  messages s = m0 :: ms →
  length (messages s) = 200%nat →
  messages (handle sid clk (send_message data) s).1
  = ms ++ [new_message sid clk user data].
Proof.
  intros Hu Hms Hlen. rewrite (send_joined _ _ _ _ _ Hu). simpl.
  rewrite Hms in *. apply push_capped_full. lia.
Qed.

(** C10.  The cap of 200 counts the messages of all rooms together: when
    the store holds 200 messages, a send of any joined connection drops
    the oldest stored message [m0] and appends the new one, whatever the
    rooms of [m0] and of the sender are. *)
Theorem capacity_is_global sid clk data s user m0 ms :
  JsObject.get (users s) sid = Some user →
  messages s = m0 :: ms →
  length (messages s) = 200%nat →
  let s' := (handle sid clk (send_message data) s).1 in
  messages s' = ms ++ [new_message sid clk user data] ∧
  length (messages s') = 200%nat ∧
  Msg.room (new_message sid clk user data) = User.room user.
Proof.
  intros Hu Hms Hlen s'. subst s'.
  rewrite (send_full_store sid clk data s user m0 ms Hu Hms Hlen).
  split_and!; [done| |done].
  rewrite length_app. rewrite Hms in Hlen. simpl in *. lia.
Qed.

Lemma capacity_is_global_witness :
  JsObject.get (users CrossRoom.store) "b1" = Some CrossRoom.bob ∧
  messages CrossRoom.store
  = CrossRoom.oldest :: drop 1 (messages CrossRoom.store) ∧
  length (messages CrossRoom.store) = 200%nat ∧
  Msg.room CrossRoom.oldest ≠ User.room CrossRoom.bob ∧
  messages (handle "b1" (Scenario.at_ 2000)
              (send_message {[ "text" := "hi"; "image" := "" ]})
              CrossRoom.store).1
  = drop 1 (messages CrossRoom.store)
    ++ [new_message "b1" (Scenario.at_ 2000) CrossRoom.bob
          {[ "text" := "hi"; "image" := "" ]}].
Proof.
  assert (JsObject.get (users CrossRoom.store) "b1" = Some CrossRoom.bob)
    as Hu by (vm_compute; reflexivity).
  assert (messages CrossRoom.store
          = CrossRoom.oldest :: drop 1 (messages CrossRoom.store))
    as Hms by (vm_compute; reflexivity).
  assert (length (messages CrossRoom.store) = 200%nat)
    as Hlen by (vm_compute; reflexivity).
  split_and!; [exact Hu|exact Hms|exact Hlen|discriminate|].
  exact (proj1 (capacity_is_global "b1" (Scenario.at_ 2000)
                  {[ "text" := "hi"; "image" := "" ]} CrossRoom.store
                  CrossRoom.bob CrossRoom.oldest
                  (drop 1 (messages CrossRoom.store)) Hu Hms Hlen)).
Defined.

(** ** Private messages *)



(** ** Joining and leaving *)

Lemma values_ids (us : list (string * User.t)) :
  (∀ k u, (k, u) ∈ us → User.id u = k) →
  User.id <$> JsObject.values us = JsObject.keys us.
Proof.
  unfold JsObject.values, JsObject.keys.
  induction us as [|[k u] us IH]; intros Hid; csimpl; [done|].
  rewrite (Hid k u) by left. f_equal. apply IH.
  intros k' u' Hin. apply Hid. by right.
Qed.

Lemma NoDup_roomUsers_ids (us : list (string * User.t)) room :
  NoDup (JsObject.keys us) →
  (∀ k u, (k, u) ∈ us → User.id u = k) →
  NoDup (User.id <$> roomUsers us room).
Proof.
  intros Hnd Hid. rewrite <-values_ids in Hnd by done.
  eapply sublist_NoDup; [exact Hnd|].
  unfold roomUsers. apply fmap_sublist, sublist_filter.
Qed.

Lemma elem_of_roomUsers (us : list (string * User.t)) room u :
  u ∈ roomUsers us room ↔ User.room u = room ∧ ∃ k, (k, u) ∈ us.
Proof.
  unfold roomUsers, JsObject.values.
  rewrite list_elem_of_filter, list_elem_of_fmap. split.
  - intros [Hr ([k u'] & -> & Hin)]. eauto.
  - intros [Hr [k Hin]]. split; [done|]. by exists (k, u).
Qed.

Lemma filter_key_absent {V} (o : list (string * V)) k :
  k ∉ JsObject.keys o → filter (λ kv, kv.1 = k) o = [].
Proof.
  unfold JsObject.keys. induction o as [|[k0 v0] o IH]; csimpl; [done|].
  intros [Hne Hnot]%not_elem_of_cons.
  rewrite filter_cons_False by (simpl; congruence). by apply IH.
Qed.

Lemma length_filter_key {V} (o : list (string * V)) k v :
  NoDup (JsObject.keys o) → JsObject.get o k = Some v →
  length (filter (λ kv, kv.1 = k) o) = 1%nat.
Proof.
  unfold JsObject.keys. induction o as [|[k0 v0] o IH]; csimpl; [done|].
  intros [Hk0 Hnd]%NoDup_cons. rewrite filter_cons. simpl.
  destruct (decide (k0 = k)) as [->|Hne]; simpl.
  - intros _. by rewrite filter_key_absent.
  - by apply IH.
Qed.

Lemma length_set_again {V} (o : list (string * V)) k v v' :
  length (JsObject.set (JsObject.set o k v) k v')
  = length (JsObject.set o k v).
Proof.
  rewrite <-!(length_fmap fst). change (fmap fst) with (@JsObject.keys V).
  rewrite (keys_set (JsObject.set o k v)). rewrite decide_True; [done|].
  destruct (decide (k ∈ JsObject.keys (JsObject.set o k v))) as [|Hnot];
    [done|].
  apply get_None_keys in Hnot. by rewrite get_set_eq in Hnot.
Qed.

(** C8.  Joining twice on one connection, with any names and rooms,
    leaves exactly one user registered for the socket, the one of the
    second join: the second join adds no entry, no room's user list
    names a socket twice, the socket appears in the user list of the
    second room only, and the second join makes the same three calls as
    any join. *)
Theorem join_twice_overwrites sid clk1 clk2 username1 room1 username2 room2 s :
  reachable s →
  let s1 := (handle sid clk1 (user_join username1 room1) s).1 in
  let r2 := handle sid clk2 (user_join username2 room2) s1 in
  let s2 := r2.1 in
  JsObject.get (users s2) sid = Some (User.mk username2 room2 sid) ∧
  length (filter (λ kv, kv.1 = sid) (users s2)) = 1%nat ∧
  length (users s2) = length (users s1) ∧
  (∀ room, NoDup (User.id <$> roomUsers (users s2) room)) ∧
  (∀ room u, u ∈ roomUsers (users s2) room → User.id u = sid →
             u = User.mk username2 room2 sid ∧ room = room2) ∧
  User.mk username2 room2 sid ∈ roomUsers (users s2) room2 ∧
  r2.2 = [ socket_join sid room2;
           io_to_emit room2 (Out.user_list (roomUsers (users s2) room2));
           io_to_emit room2 (Out.user_joined username2 sid) ].
Proof.
  intros Hs s1 r2 s2.
  assert (reachable s1) as Hs1
    by apply (reachable_step s (sid, clk1, user_join username1 room1) Hs).
  assert (reachable s2) as Hs2
    by apply (reachable_step s1 (sid, clk2, user_join username2 room2) Hs1).
  destruct (reachable_wf _ Hs2) as [Hk Hid _ _ _ _].
  assert (JsObject.get (users s2) sid = Some (User.mk username2 room2 sid))
    as Hget by apply get_set_eq.
  split_and!; try done.
  - by eapply length_filter_key.
  - apply length_set_again.
  - intros room. by apply NoDup_roomUsers_ids.
  - intros room u [Hroom [k Hin]]%elem_of_roomUsers Hu.
    rewrite (Hid k u Hin) in Hu. subst k.
    apply (elem_get _ _ _ Hk) in Hin. rewrite Hget in Hin.
    injection Hin as <-. done.
  - apply elem_of_roomUsers. split; [done|]. exists sid.
    by apply get_Some_elem.
Qed.

Lemma join_twice_overwrites_witness :
  reachable Scenario.alice_sent ∧
  let s2 := (run [ ("b1", Scenario.at_ 1001, user_join "bob" "General");
                   ("b1", Scenario.at_ 1002, user_join "bobby" "Random") ]
               Scenario.alice_sent).1 in
  JsObject.get (users s2) "b1" = Some (User.mk "bobby" "Random" "b1") ∧
  length (filter (λ kv, kv.1 = "b1") (users s2)) = 1%nat.
Proof.
  assert (reachable Scenario.alice_sent) as Hr
    by apply reachable_run, reachable_init.
  split; [exact Hr|].
  pose proof (join_twice_overwrites "b1" (Scenario.at_ 1001)
                (Scenario.at_ 1002) "bob" "General" "bobby" "Random"
                Scenario.alice_sent Hr) as (H1 & H2 & _).
  split; [exact H1|exact H2].
Defined.

Lemma not_elem_of_keys_delete {V} (o : list (string * V)) k :
  k ∉ JsObject.keys (JsObject.delete o k).
Proof. apply get_None_keys, get_delete_eq. Qed.

(** After the socket's entries are deleted, a room's typing list is the
    one before without the socket's entry. *)
Lemma roomTyping_delete (us : list (string * User.t))
    (ty : list (string * string)) sid room :
  roomTyping (JsObject.delete us sid) (JsObject.delete ty sid) room =
  (filter (λ kv, kv.1 ≠ sid ∧ User.room <$> JsObject.get us kv.1 = Some room)
          ty).*2.
Proof.
  unfold roomTyping, JsObject.entries. f_equal.
  change (JsObject.delete ty sid) with (filter (λ kv, kv.1 ≠ sid) ty).
  rewrite list_filter_filter. apply list_filter_iff. intros [k n]. simpl.
  split.
  - intros [H1 H2]. split; [done|]. by rewrite get_delete_ne in H1.
  - intros [H1 H2]. split; [|done]. by rewrite get_delete_ne.
Qed.

(** C7.  A disconnect of a joined connection removes its user and its
    typing entry: no room's user list names the socket afterwards, every
    room's typing list is the earlier one without the socket's entry, and
    the handler broadcasts to the user's room the new user list followed
    by one [user_left].  A disconnect of a connection that has not joined
    changes nothing and makes no call. *)
Theorem disconnect_cleans_up sid clk s :
  reachable s →
  let r := handle sid clk disconnect s in
  match JsObject.get (users s) sid with
  | Some user =>
      JsObject.get (users r.1) sid = None ∧
      (∀ room u, u ∈ roomUsers (users r.1) room → User.id u ≠ sid) ∧
      (sid ∉ JsObject.keys (typingUsers r.1)) ∧
      (∀ room,
         roomTyping (users r.1) (typingUsers r.1) room =
         (filter (λ kv, kv.1 ≠ sid ∧
                        User.room <$> JsObject.get (users s) kv.1 = Some room)
                 (typingUsers s)).*2) ∧
      messages r.1 = messages s ∧
      r.2 = [ io_to_emit (User.room user)
                (Out.user_list (roomUsers (users r.1) (User.room user)));
              io_to_emit (User.room user)
                (Out.user_left (User.username user)) ]
  | None => r = (s, [])
  end.
Proof.
  intros Hs r. subst r. simpl. unfold on_disconnect.
  destruct (JsObject.get (users s) sid) as [user|] eqn:Hu; [|done]. simpl.
  destruct (reachable_wf _ Hs) as [Hk Hid _ _ _ _].
  split_and!; try done.
  - apply get_delete_eq.
  - intros room u [_ [k [Hne Hin]%elem_of_delete]]%elem_of_roomUsers.
    by rewrite (Hid k u Hin).
  - apply not_elem_of_keys_delete.
  - intros room. apply roomTyping_delete.
Qed.

Lemma disconnect_cleans_up_witness :
  reachable Typing.store ∧
  roomTyping (users Typing.store) (typingUsers Typing.store) "General"
  = ["alice"; "bob"] ∧
  let r := handle "a1" (Scenario.at_ 5) disconnect Typing.store in
  roomTyping (users r.1) (typingUsers r.1) "General" = ["bob"] ∧
  r.2 = [ io_to_emit "General"
            (Out.user_list [User.mk "bob" "General" "b1"]);
          io_to_emit "General" (Out.user_left "alice") ].
Proof.
  assert (reachable Typing.store) as Hr by apply reachable_run, reachable_init.
  split; [exact Hr|]. split; [reflexivity|].
  pose proof (disconnect_cleans_up "a1" (Scenario.at_ 5) Typing.store Hr)
    as H.
  change (JsObject.get (users Typing.store) "a1")
    with (Some (User.mk "alice" "General" "a1")) in H.
  destruct H as (_ & _ & _ & Hty & _ & Hout).
  split; [rewrite Hty; reflexivity|rewrite Hout; reflexivity].
Defined.

(** ** Seen receipts *)

Lemma seen_already sid clk messageId s user i msg :
  JsObject.get (users s) sid = Some user →
  find_message messageId (messages s) = Some (i, msg) →
  User.username user ∈ Msg.seenBy msg →
  handle sid clk (message_seen messageId) s = (s, []).
Proof.
  intros Hu Hf Hin. simpl. unfold on_message_seen.
  by rewrite Hu, Hf, decide_True.
Qed.

Lemma seen_new sid clk messageId s user i msg :
  JsObject.get (users s) sid = Some user →
  find_message messageId (messages s) = Some (i, msg) →
  User.username user ∉ Msg.seenBy msg →
  handle sid clk (message_seen messageId) s =
  let msg' := add_seenBy (User.username user) msg in
  (with_messages (<[i := msg']> (messages s)) s,
   [ io_to_emit (Msg.room msg)
       (Out.message_seen_update messageId (Msg.seenBy msg')) ]).
Proof.
  intros Hu Hf Hin. simpl. unfold on_message_seen.
  by rewrite Hu, Hf, decide_False.
Qed.

(** Replacing the message found by one of the same id leaves the lookup
    at the same place. *)
Lemma find_message_insert messageId ms i msg msg' :
  find_message messageId ms = Some (i, msg) →
  Msg.id msg' = messageId →
  find_message messageId (<[i := msg']> ms) = Some (i, msg').
Proof.
  intros (Hi & Hid & Hbefore)%find_message_Some Hid'.
  unfold find_message. apply list_find_Some. split_and!.
  - apply list_lookup_insert_eq. by eapply lookup_lt_Some.
  - done.
  - intros j m' Hj Hlt. rewrite list_lookup_insert_ne in Hj by lia.
    by eapply Hbefore.
Qed.


(** What one event does to the stored messages: the store drops at most
    its oldest message ([k] is 0 or 1, and 1 only for a send into a store
    of 200), and every other message keeps its place in the order, stays
    the same message and keeps its [seenBy] as a prefix. *)
Lemma seenBy_grows s a :
  ∃ k, (k ≤ 1)%nat ∧
    (k = 1%nat → is_send a ∧ (200 ≤ length (messages s))%nat) ∧
    (length (messages (step s a).1) + k ≤ length (messages s) + sends [a])%nat ∧
    ∀ i m, messages s !! (k + i)%nat = Some m →
      ∃ m', messages (step s a).1 !! i = Some m' ∧
            bare m' = bare m ∧
            Msg.seenBy m `prefix_of` Msg.seenBy m' ∧
            (length (Msg.seenBy m) ≤ length (Msg.seenBy m'))%nat.
Proof.
  assert (∀ s' : Server, messages s' = messages s →
    ∃ k, (k ≤ 1)%nat ∧
      (k = 1%nat → is_send a ∧ (200 ≤ length (messages s))%nat) ∧
      (length (messages s') + k ≤ length (messages s) + sends [a])%nat ∧
      ∀ i m, messages s !! (k + i)%nat = Some m →
        ∃ m', messages s' !! i = Some m' ∧
              bare m' = bare m ∧
              Msg.seenBy m `prefix_of` Msg.seenBy m' ∧
              (length (Msg.seenBy m) ≤ length (Msg.seenBy m'))%nat) as Hsame.
  { intros s' ->. exists 0%nat. split_and!; [lia|lia|lia|].
    intros i m Hi. by exists m. }
  assert (∀ (s' : Server) j msg msg',
    messages s !! j = Some msg →
    bare msg' = bare msg →
    Msg.seenBy msg `prefix_of` Msg.seenBy msg' →
    messages s' = <[j := msg']> (messages s) →
    ∃ k, (k ≤ 1)%nat ∧
      (k = 1%nat → is_send a ∧ (200 ≤ length (messages s))%nat) ∧
      (length (messages s') + k ≤ length (messages s) + sends [a])%nat ∧
      ∀ i m, messages s !! (k + i)%nat = Some m →
        ∃ m', messages s' !! i = Some m' ∧
              bare m' = bare m ∧
              Msg.seenBy m `prefix_of` Msg.seenBy m' ∧
              (length (Msg.seenBy m) ≤ length (Msg.seenBy m'))%nat) as Hins.
  { intros s' j msg msg' Hj Hbare Hpre ->. exists 0%nat.
    split_and!; [lia|lia|rewrite length_insert; lia|].
    intros i m Hi. simpl in Hi. destruct (decide (j = i)) as [->|Hne].
    - exists msg'. rewrite list_lookup_insert_eq by (by eapply lookup_lt_Some).
      assert (m = msg) as -> by congruence.
      split_and!; [done|done|done|by apply prefix_length].
    - exists m. by rewrite list_lookup_insert_ne. }
  destruct a as [[sid clk] ev]. unfold step. simpl fst. simpl snd.
  destruct ev; simpl handle.
  - by apply Hsame.
  - unfold on_send_message. destruct (JsObject.get _ _) as [user|];
      [|by apply Hsame]. simpl.
    unfold push_capped, shift. simpl. case_decide as Hlen.
    + rewrite length_app in Hlen. simpl in Hlen.
      exists 1%nat. split_and!; [lia|intros _; split; [done|lia]| |].
      * rewrite length_drop, length_app. unfold sends. simpl. lia.
      * intros i m Hi. exists m.
        rewrite lookup_drop, lookup_app_l by (by eapply lookup_lt_Some).
        done.
    + exists 0%nat. split_and!; [lia|lia| |].
      * rewrite length_app. unfold sends. simpl. lia.
      * intros i m Hi. exists m.
        rewrite lookup_app_l by (by eapply lookup_lt_Some). done.
  - by apply Hsame.
  - unfold on_typing. destruct (JsObject.get _ _); by apply Hsame.
  - unfold on_message_reaction.
    destruct (find_message _ _) as [[j msg]|] eqn:Hf; [|by apply Hsame].
    apply find_message_Some in Hf as (Hj & _ & _).
    apply (Hins _ j msg (add_reaction emoji msg)); [exact Hj| | |reflexivity].
    + apply bare_add_reaction.
    + by rewrite add_reaction_seenBy.
  - unfold on_disconnect. destruct (JsObject.get _ _); by apply Hsame.
  - unfold on_message_seen. destruct (JsObject.get _ _); [|by apply Hsame].
    destruct (find_message _ _) as [[j msg]|] eqn:Hf; [|by apply Hsame].
    case_decide; [by apply Hsame|].
    apply find_message_Some in Hf as (Hj & _ & _).
    eapply (Hins _ j msg (Msg.with_seenBy _ msg));
      [exact Hj|reflexivity| |reflexivity].
    simpl. by apply prefix_app_r.
Qed.

Lemma sends_cons a evs : sends (a :: evs) = (sends [a] + sends evs)%nat.
Proof. unfold sends. rewrite (filter_app _ [a] evs), length_app. done. Qed.

(** The same over any sequence of events.  The store drops [k] of its
    oldest messages, no more than the sends among the events can push a
    store of 200 over; every other message keeps its place in the order,
    stays the same message and keeps its [seenBy] as a prefix. *)
Lemma seenBy_grows_run evs : ∀ s,
  ∃ k, (k ≤ length (messages s) + sends evs - 200)%nat ∧
    ∀ i m, messages s !! (k + i)%nat = Some m →
      ∃ m', messages (run evs s).1 !! i = Some m' ∧
            bare m' = bare m ∧
            Msg.seenBy m `prefix_of` Msg.seenBy m' ∧
            (length (Msg.seenBy m) ≤ length (Msg.seenBy m'))%nat.
Proof.
  induction evs as [|a evs IH]; intros s.
  - exists 0%nat. split; [lia|]. intros i m Hi. by exists m.
  - destruct (seenBy_grows s a) as (k1 & Hk1 & Hfull & Hlen & H1).
    destruct (IH (step s a).1) as (k2 & Hk2 & H2).
    assert (k1 = 1%nat → sends [a] = 1%nat ∧ (200 ≤ length (messages s))%nat)
      as Hone.
    { intros [Hsend ?]%Hfull. split; [|done].
      unfold sends. by rewrite filter_cons_True. }
    exists (k1 + k2)%nat. split.
    + rewrite sends_cons. lia.
    + intros i m Hi.
      replace (k1 + k2 + i)%nat with (k1 + (k2 + i))%nat in Hi by lia.
      destruct (H1 _ _ Hi) as (m1 & Hm1 & Hb1 & Hpre1 & Hlen1).
      destruct (H2 _ _ Hm1) as (m' & Hm' & Hb2 & Hpre2 & Hlen2).
      exists m'. split_and!; [done|congruence|by etrans|lia].
Qed.


(** C5.  A [message_seen] marks the first stored message that has the id,
    and the update it broadcasts names the id only.  alice's messages
    "one" and "two" were created in one tick and share the id 1000 and
    the room.  When bob marks id 1000 as seen, his name is appended to
    the [seenBy] of "one" and a [message_seen_update] for id 1000 is
    broadcast to the room, while the [seenBy] of "two" stays as it was;
    marking again changes nothing, so bob is not recorded on "two" as
    long as "one" is stored.  A client applies the update to every
    message of that id and shows "two" as seen by bob. *)
Theorem seen_update_names_a_message_it_leaves_unchanged :
  messages Shadowed.store = [Shadowed.one; Shadowed.two] ∧
  Msg.id Shadowed.two = 1000 ∧ Msg.room Shadowed.two = "General" ∧
  Msg.seenBy Shadowed.two = ["alice"] ∧
  let r := handle "b1" (Scenario.at_ 1002) (message_seen 1000) Shadowed.store in
  messages r.1 = [add_seenBy "bob" Shadowed.one; Shadowed.two] ∧
  r.2 = [ io_to_emit "General"
            (Out.message_seen_update 1000 ["alice"; "bob"]) ] ∧
  handle "b1" (Scenario.at_ 1003) (message_seen 1000) r.1 = (r.1, []) ∧
  App.on_message_seen_update 1000 ["alice"; "bob"] (messages Shadowed.store)
  = [add_seenBy "bob" Shadowed.one; add_seenBy "bob" Shadowed.two].
Proof. by split_and!. Qed.

(** In every store the server can be in, no [seenBy] holds a name twice.
    Over any sequence of events the store only drops oldest messages, no
    more of them than the sends among the events can push a store of 200
    over, and every other message keeps its place in the order, stays the
    same message up to reactions and [seenBy], and has its [seenBy]
    extended, never shortened or reordered. *)
Theorem seenBy_only_grows s :
  reachable s →
  (∀ m, m ∈ messages s → NoDup (Msg.seenBy m)) ∧
  (∀ evs, ∃ k, (k ≤ length (messages s) + sends evs - 200)%nat ∧
     ∀ i m, messages s !! (k + i)%nat = Some m →
       ∃ m', messages (run evs s).1 !! i = Some m' ∧
             bare m' = bare m ∧
             Msg.seenBy m `prefix_of` Msg.seenBy m' ∧
             (length (Msg.seenBy m) ≤ length (Msg.seenBy m'))%nat).
Proof.
  intros Hs. split.
  - by destruct (reachable_wf _ Hs).
  - intros evs. apply seenBy_grows_run.
Qed.

Lemma seenBy_only_grows_witness :
  reachable Seen.store ∧
  sends SeenByTwo.arrivals = 0%nat ∧
  ∃ m', messages (run SeenByTwo.arrivals Seen.store).1 !! 0%nat = Some m' ∧
        bare m' = bare Reactions.sent ∧
        Msg.seenBy Reactions.sent `prefix_of` Msg.seenBy m'.
Proof.
  assert (reachable Seen.store) as Hr by apply reachable_run, reachable_init.
  split; [exact Hr|]. split; [reflexivity|].
  destruct (proj2 (seenBy_only_grows Seen.store Hr) SeenByTwo.arrivals)
    as (k & Hk & H).
  assert (k = 0%nat) as -> by (vm_compute in Hk; lia).
  destruct (H 0%nat Reactions.sent eq_refl) as (m' & Hm' & Hb & Hpre & _).
  exists m'. split_and!; [exact Hm'|exact Hb|exact Hpre].
Defined.



(** ** Reactions *)

Lemma find_index_ids messageId ms :
  fst <$> find_message messageId ms
  = fst <$> list_find (λ x, x = messageId) (Msg.id <$> ms).
Proof.
  unfold find_message. rewrite list_find_fmap.
  by destruct (list_find _ ms) as [[??]|].
Qed.

Lemma find_message_same_ids messageId ms ms' i m :
  Msg.id <$> ms = Msg.id <$> ms' →
  find_message messageId ms = Some (i, m) →
  ∃ m', find_message messageId ms' = Some (i, m').
Proof.
  intros Hids Hf.
  pose proof (find_index_ids messageId ms) as H1.
  pose proof (find_index_ids messageId ms') as H2.
  rewrite Hids, <-H2, Hf in H1. simpl in H1.
  destruct (find_message messageId ms') as [[i' m']|]; [|done].
  injection H1 as ->. by exists m'.
Qed.

Lemma insert_same_id (ms : list Msg.t) j m m' :
  ms !! j = Some m → Msg.id m' = Msg.id m →
  Msg.id <$> <[j := m']> ms = Msg.id <$> ms.
Proof.
  intros Hj Hid. rewrite list_fmap_insert, Hid.
  apply list_insert_id. by rewrite list_lookup_fmap, Hj.
Qed.

Lemma reaction_ids sid clk messageId emoji s :
  Msg.id <$> messages (handle sid clk (message_reaction messageId emoji) s).1
  = Msg.id <$> messages s.
Proof.
  simpl. unfold on_message_reaction.
  destruct (find_message _ _) as [[j m]|] eqn:Hf; [|done]. simpl.
  apply find_message_Some in Hf as (Hj & _ & _).
  apply insert_same_id with m; [done|apply add_reaction_id].
Qed.

Lemma reaction_frame sid clk messageId emoji s :
  users (handle sid clk (message_reaction messageId emoji) s).1 = users s ∧
  typingUsers (handle sid clk (message_reaction messageId emoji) s).1
  = typingUsers s.
Proof.
  simpl. unfold on_message_reaction.
  by destruct (find_message _ _) as [[j m]|].
Qed.

Lemma append_1_nonempty (t : string) : t +:+ "1" ≠ "".
Proof. by destruct t. Qed.

Lemma prototype_undefined_not_proto emoji :
  Js.prototype emoji = Js.undefined → emoji ≠ "__proto__".
Proof. by intros H ->. Qed.

(** A reaction keeps what [msg.reactions] can own. *)
Lemma reactions_ok_add_reaction emoji m :
  reactions_ok m → reactions_ok (add_reaction emoji m).
Proof.
  intros Hok. unfold add_reaction. case_decide as Hp; [done|].
  intros e v. simpl. destruct (decide (emoji = e)) as [<-|Hne].
  2: { rewrite lookup_insert_ne by done. apply Hok. }
  rewrite lookup_insert_eq. intros [= <-].
  unfold Msg.get. destruct (Msg.reactions m !! emoji) as [v0|] eqn:Hv0.
  - destruct (Hok _ _ Hv0) as [Hne Hv]. split; [done|].
    destruct (Js.prototype emoji).
    + destruct Hv as (n & -> & Hn). exists (n + 1). split; [done|lia].
    + destruct Hv as (t & -> & Ht). simpl. rewrite decide_False by done.
      exists (t +:+ "1"). split; [done|apply append_1_nonempty].
    + destruct Hv as (t & -> & Ht). simpl. rewrite decide_False by done.
      exists (t +:+ "1"). split; [done|apply append_1_nonempty].
    + destruct Hv as (t & -> & Ht). simpl. rewrite decide_False by done.
      exists (t +:+ "1"). split; [done|apply append_1_nonempty].
  - assert (emoji ≠ "__proto__") as Hne by (intros ->; by apply Hp).
    split; [done|].
    destruct (Js.prototype emoji) as [|n|t|t] eqn:Hproto; simpl.
    + exists 1. split; [done|lia].
    + exfalso. unfold Js.prototype in Hproto. by repeat case_decide.
    + exfalso. unfold Js.prototype in Hproto. by repeat case_decide.
    + exists (t +:+ "1"). split; [done|apply append_1_nonempty].
Qed.

Lemma reachable_reactions_ok s :
  reachable s → ∀ m, m ∈ messages s → reactions_ok m.
Proof.
  induction 1 as [|s [[sid clk] ev] Hs IH].
  { intros m Hm. by apply elem_of_nil in Hm. }
  handler_cases sid clk ev; try done.
  - (* send_message *)
    intros m [Hin| ->]%elem_of_push_capped; [by apply IH|].
    intros e v. simpl. by rewrite lookup_empty.
  - (* message_reaction *)
    intros m [->|Hin]%elem_of_insert_inv; [|by apply IH].
    apply reactions_ok_add_reaction, IH.
    apply find_message_Some in Hf as (Hi & _ & _).
    apply list_elem_of_lookup. eauto.
  - (* message_seen *)
    intros m [->|Hin]%elem_of_insert_inv; [|by apply IH].
    intros e v Hv. simpl in Hv. revert e v Hv. apply IH.
    apply find_message_Some in Hf as (Hi & _ & _).
    apply list_elem_of_lookup. eauto.
Qed.

Lemma reactions_ok_numeric emoji m :
  reactions_ok m → Js.prototype emoji = Js.undefined → numeric emoji m.
Proof.
  intros Hok Hproto. unfold numeric.
  destruct (Msg.reactions m !! emoji) as [v|] eqn:Hv; [|done].
  destruct (Hok _ _ Hv) as [_ Hn]. rewrite Hproto in Hn.
  by destruct Hn as (n & -> & _).
Qed.

(** The count of [emoji] after one reaction, for a name that
    [Object.prototype] does not define and that holds a number if it
    holds anything. *)
Lemma count_add_reaction emoji emoji' m :
  Js.prototype emoji = Js.undefined → numeric emoji m →
  numeric emoji (add_reaction emoji' m) ∧
  Msg.count emoji (add_reaction emoji' m) =
  if decide (emoji' = emoji) then Msg.count emoji m + 1 else Msg.count emoji m.
Proof.
  intros Hproto Hnum. unfold numeric, Msg.count, add_reaction in *.
  destruct (decide (emoji' = emoji)) as [->|He].
  - rewrite decide_False
      by (intros [? _]; by apply (prototype_undefined_not_proto emoji)).
    simpl. rewrite lookup_insert_eq. unfold Msg.get.
    destruct (Msg.reactions m !! emoji) as [[|n|t|t]|]; try done.
    by rewrite Hproto.
  - case_decide; [done|]. simpl. by rewrite lookup_insert_ne.
Qed.

(** One reaction, seen from the message that the id [messageId] finds. *)
Lemma reaction_step_count sid clk messageId' emoji' s messageId emoji i m :
  Js.prototype emoji = Js.undefined → numeric emoji m →
  find_message messageId (messages s) = Some (i, m) →
  ∃ m',
    find_message messageId
      (messages (handle sid clk (message_reaction messageId' emoji') s).1)
    = Some (i, m') ∧
    numeric emoji m' ∧
    Msg.count emoji m' =
    if decide (message_reaction messageId' emoji'
               = message_reaction messageId emoji)
    then Msg.count emoji m + 1 else Msg.count emoji m.
Proof.
  intros Hproto Hnum Hf. simpl. unfold on_message_reaction.
  destruct (find_message messageId' (messages s)) as [[j mj]|] eqn:Hf'; simpl.
  2: { exists m. split_and!; [done|done|]. rewrite decide_False; [done|].
       intros [= -> ->]. congruence. }
  destruct (decide (j = i)) as [->|Hne].
  - assert (mj = m) as ->.
    { apply find_message_Some in Hf as (? & _), Hf' as (? & _). congruence. }
    assert (messageId' = messageId) as ->.
    { apply find_message_Some in Hf as (_ & ? & _), Hf' as (_ & ? & _).
      congruence. }
    destruct (count_add_reaction emoji emoji' m Hproto Hnum) as [Hnum' Hc].
    exists (add_reaction emoji' m). split_and!.
    + apply find_message_insert with m; [done|].
      rewrite add_reaction_id.
      by apply find_message_Some in Hf as (_ & ? & _).
    + done.
    + rewrite Hc.
      destruct (decide (emoji' = emoji)) as [->|He].
      * by rewrite decide_True.
      * rewrite decide_False; [done|]. by intros [= ->].
  - assert (messageId' ≠ messageId) as Hid.
    { intros ->. rewrite Hf in Hf'. congruence. }
    exists m. split_and!.
    + pose proof Hf as (Hi & Hidm & Hbefore)%find_message_Some.
      apply list_find_Some. split_and!.
      * by rewrite list_lookup_insert_ne.
      * done.
      * intros k y Hk Hlt. destruct (decide (j = k)) as [->|Hjk].
        -- apply find_message_Some in Hf' as (Hj & Hidj & _).
           rewrite list_lookup_insert_eq in Hk by (by eapply lookup_lt_Some).
           injection Hk as <-. rewrite add_reaction_id. congruence.
        -- rewrite list_lookup_insert_ne in Hk by done. by eapply Hbefore.
    + done.
    + rewrite decide_False; [done|]. by intros [= -> ->].
Qed.

Lemma run_reactions_count messageId emoji i evs : ∀ s m,
  Js.prototype emoji = Js.undefined → numeric emoji m →
  Forall is_reaction evs →
  find_message messageId (messages s) = Some (i, m) →
  ∃ m',
    find_message messageId (messages (run evs s).1) = Some (i, m') ∧
    Msg.count emoji m' =
    Msg.count emoji m
    + Z.of_nat (length (filter (reacts_to messageId emoji) evs)).
Proof.
  induction evs as [|[[sid clk] ev] evs IH]; intros s m Hproto Hnum Hall Hf;
    simpl.
  - exists m. split; [done|]. lia.
  - apply Forall_cons in Hall as [Hev Hall].
    destruct ev as [| | | |messageId' emoji'| |]; try done.
    unfold step. simpl fst. simpl snd.
    destruct (reaction_step_count sid clk messageId' emoji' s messageId emoji
                i m Hproto Hnum Hf) as (m1 & Hf1 & Hnum1 & Hc1).
    destruct (IH _ m1 Hproto Hnum1 Hall Hf1) as (m' & Hf' & Hc').
    exists m'. split; [done|]. rewrite Hc', Hc1.
    destruct (decide (message_reaction messageId' emoji'
                      = message_reaction messageId emoji)) as [Heq|Hne].
    + rewrite filter_cons_True by done. simpl length. lia.
    + rewrite filter_cons_False by done. lia.
Qed.

(** The message that [messageId] finds stays where it is under any
    reaction. *)
Lemma reaction_step_find sid clk messageId' emoji' s messageId i m :
  find_message messageId (messages s) = Some (i, m) →
  ∃ m',
    find_message messageId
      (messages (handle sid clk (message_reaction messageId' emoji') s).1)
    = Some (i, m').
Proof.
  intros Hf.
  pose proof (reaction_ids sid clk messageId' emoji' s) as Hids.
  by apply (find_message_same_ids _ _ _ _ _ (eq_sym Hids)) in Hf.
Qed.

Lemma forget_ids i emoji ms : Msg.id <$> forget i emoji ms = Msg.id <$> ms.
Proof.
  unfold forget. rewrite (list_fmap_alter Msg.id (forget_msg emoji) id).
  - by apply list_alter_id.
  - by apply Forall_forall.
Qed.

Lemma forget_add_reaction_ne emoji emoji' m :
  emoji' ≠ emoji →
  forget_msg emoji (add_reaction emoji' m)
  = add_reaction emoji' (forget_msg emoji m).
Proof.
  intros Hne. unfold add_reaction, Msg.get, forget_msg at 3 4 5. simpl.
  rewrite lookup_delete_ne by done.
  case_decide; [done|].
  unfold forget_msg, Msg.with_reactions. simpl. f_equal.
  by rewrite delete_insert_ne.
Qed.

Lemma forget_add_reaction_eq emoji m :
  forget_msg emoji (add_reaction emoji m) = forget_msg emoji m.
Proof.
  unfold add_reaction. case_decide; [done|].
  unfold forget_msg, Msg.with_reactions. simpl. f_equal.
  by rewrite delete_insert_eq.
Qed.

Lemma forget_insert_eq i emoji ms m :
  forget i emoji (<[i := m]> ms) = <[i := forget_msg emoji m]> ms.
Proof.
  unfold forget. rewrite !list_insert_alter, list_alter_alter_eq. done.
Qed.

Lemma forget_insert_ne i j emoji ms m :
  i ≠ j → forget i emoji (<[j := m]> ms) = <[j := m]> (forget i emoji ms).
Proof.
  intros Hne. unfold forget. rewrite !list_insert_alter.
  by rewrite list_alter_alter_ne.
Qed.

Lemma insert_forget i emoji ms m :
  <[i := m]> (forget i emoji ms) = <[i := m]> ms.
Proof.
  unfold forget. rewrite !list_insert_alter, list_alter_alter_eq. done.
Qed.

Lemma forget_lookup_eq i emoji ms1 ms2 m1 m2 :
  forget i emoji ms1 = forget i emoji ms2 →
  ms1 !! i = Some m1 → ms2 !! i = Some m2 →
  forget_msg emoji m1 = forget_msg emoji m2.
Proof.
  intros Heq H1 H2. apply (f_equal (.!! i)) in Heq. unfold forget in Heq.
  rewrite !list_lookup_alter_eq, H1, H2 in Heq. simpl in Heq. congruence.
Qed.

Lemma forget_lookup_ne i j emoji ms1 ms2 :
  forget i emoji ms1 = forget i emoji ms2 → i ≠ j → ms1 !! j = ms2 !! j.
Proof.
  intros Heq Hne. apply (f_equal (.!! j)) in Heq. unfold forget in Heq.
  by rewrite !list_lookup_alter_ne in Heq.
Qed.

(** A reaction other than ([messageId], [emoji]) keeps two stores equal
    up to the count of [emoji] on the message that [messageId] finds. *)
Lemma reaction_step_forget sid clk messageId' emoji' messageId emoji i m1 s1 s2 :
  find_message messageId (messages s1) = Some (i, m1) →
  message_reaction messageId' emoji' ≠ message_reaction messageId emoji →
  forget i emoji (messages s1) = forget i emoji (messages s2) →
  forget i emoji
    (messages (handle sid clk (message_reaction messageId' emoji') s1).1)
  = forget i emoji
      (messages (handle sid clk (message_reaction messageId' emoji') s2).1).
Proof.
  intros Hf Hne Heq.
  assert (Msg.id <$> messages s1 = Msg.id <$> messages s2) as Hids.
  { by rewrite <-(forget_ids i emoji (messages s1)), Heq, forget_ids. }
  simpl. unfold on_message_reaction.
  destruct (find_message messageId' (messages s1)) as [[j x1]|] eqn:Hf1.
  2: { destruct (find_message messageId' (messages s2)) as [[j x2]|] eqn:Hf2;
         [|done].
       destruct (find_message_same_ids _ _ _ _ _ (eq_sym Hids) Hf2) as [? ?].
       congruence. }
  destruct (find_message_same_ids _ _ _ _ _ Hids Hf1) as [x2 Hf2].
  rewrite Hf2. simpl.
  pose proof Hf1 as (Hj1 & Hid1 & _)%find_message_Some.
  pose proof Hf2 as (Hj2 & _ & _)%find_message_Some.
  destruct (decide (i = j)) as [<-|Hij].
  - pose proof Hf as (Hi1 & Hidm & _)%find_message_Some.
    assert (x1 = m1) as -> by congruence.
    assert (emoji' ≠ emoji) as He by (intros ->; apply Hne; congruence).
    rewrite !forget_insert_eq, !forget_add_reaction_ne by done.
    rewrite (forget_lookup_eq _ _ _ _ _ _ Heq Hi1 Hj2).
    rewrite <-(insert_forget i emoji (messages s1)), Heq.
    by rewrite insert_forget.
  - rewrite !forget_insert_ne by done.
    assert (x1 = x2) as ->.
    { pose proof (forget_lookup_ne _ _ _ _ _ Heq Hij) as H. congruence. }
    by rewrite Heq.
Qed.

(** A reaction ([messageId], [emoji]) changes nothing but that count. *)
Lemma reaction_step_forget_own sid clk messageId emoji i m s :
  find_message messageId (messages s) = Some (i, m) →
  forget i emoji
    (messages (handle sid clk (message_reaction messageId emoji) s).1)
  = forget i emoji (messages s).
Proof.
  intros Hf. simpl. unfold on_message_reaction. rewrite Hf. simpl.
  apply find_message_Some in Hf as (Hi & _ & _).
  rewrite forget_insert_eq, forget_add_reaction_eq.
  unfold forget. rewrite list_insert_alter. apply list_alter_ext; [|done].
  intros x Hx. congruence.
Qed.

Lemma run_reactions_forget messageId emoji i evs : ∀ s1 s2 m1,
  Forall is_reaction evs →
  find_message messageId (messages s1) = Some (i, m1) →
  forget i emoji (messages s1) = forget i emoji (messages s2) →
  forget i emoji (messages (run evs s1).1)
  = forget i emoji
      (messages
         (run (filter (λ a, ¬ reacts_to messageId emoji a) evs) s2).1).
Proof.
  induction evs as [|[[sid clk] ev] evs IH]; intros s1 s2 m1 Hall Hf Heq;
    simpl; [done|].
  apply Forall_cons in Hall as [Hev Hall].
  destruct ev as [| | | |messageId' emoji'| |]; try done.
  unfold step at 1. simpl fst. simpl snd.
  destruct (reaction_step_find sid clk messageId' emoji' s1 messageId
              i m1 Hf) as (m1' & Hf1).
  destruct (decide (reacts_to messageId emoji
                      (sid, clk, message_reaction messageId' emoji')))
    as [Hr|Hr].
  - rewrite filter_cons_False by (by intros ?).
    injection Hr as -> ->.
    apply (IH _ _ m1' Hall Hf1).
    by rewrite (reaction_step_forget_own _ _ _ _ _ _ _ Hf).
  - rewrite filter_cons_True by done. simpl.
    apply (IH _ _ m1' Hall Hf1).
    by apply (reaction_step_forget sid clk messageId' emoji' messageId emoji
                i m1).
Qed.

Lemma run_reactions_frame evs : ∀ s,
  Forall is_reaction evs →
  users (run evs s).1 = users s ∧ typingUsers (run evs s).1 = typingUsers s.
Proof.
  induction evs as [|[[sid clk] ev] evs IH]; intros s Hall; simpl; [done|].
  apply Forall_cons in Hall as [Hev Hall].
  destruct ev as [| | | |messageId' emoji'| |]; try done.
  destruct (IH (step s (sid, clk, message_reaction messageId' emoji')).1 Hall)
    as [-> ->].
  apply reaction_frame.
Qed.

(** C6.  A reaction is counted on the first stored message that has
    the id, under the property of [msg.reactions] that the emoji names.
    So the count is not additive for every stored message and emoji.
    alice's messages "one" and "two" share the id 1000: two reactions to
    that id with a thumb leave the count of "two" at 0 and raise that of
    "one" to 2.  For the emoji ['toString'] the property read is the
    function inherited from [Object.prototype]: one reaction stores the
    function's text followed by '1', no count, and a second appends
    another '1'.  For ['__proto__'] a reaction stores nothing, and the
    unchanged message is still broadcast. *)
Theorem reaction_counts_are_not_additive :
  messages Shadowed.store = [Shadowed.one; Shadowed.two] ∧
  Forall (reacts_to 1000 "👍") Shadowed.reactions ∧
  Msg.count "👍" <$> messages (run Shadowed.reactions Shadowed.store).1
  = [2; 0] ∧
  messages Seen.store = [Reactions.sent] ∧
  (let r := run [ ("b1", Scenario.at_ 1001, message_reaction 1000 "toString") ]
                Seen.store in
   Msg.reactions <$> messages r.1
   = [ {[ "toString" := Js.str "function toString() { [native code] }1" ]} ] ∧
   Msg.count "toString" <$> messages r.1 = [0]) ∧
  (let r := run [ ("b1", Scenario.at_ 1001, message_reaction 1000 "toString");
                  ("b1", Scenario.at_ 1002, message_reaction 1000 "toString") ]
                Seen.store in
   Msg.reactions <$> messages r.1
   = [ {[ "toString" := Js.str "function toString() { [native code] }11" ]} ] ∧
   Msg.count "toString" <$> messages r.1 = [0]) ∧
  handle "b1" (Scenario.at_ 1001) (message_reaction 1000 "__proto__") Seen.store
  = (Seen.store, [ io_to_emit "General" (Out.receive_message Reactions.sent) ]).
Proof.
  split_and!; try reflexivity; try (by intros r; split).
  repeat constructor.
Qed.

(** Take a store the server can be in, a message id that finds a stored
    message, an emoji that is not the name of a property of
    [Object.prototype], and any sequence of reactions (to any ids, with
    any emoji, from any connections).  The id finds the message at the
    same place afterwards and its count of [emoji] has grown by exactly
    the number of reactions to this id with this emoji, so it is exactly
    that number for a message that started without reactions.
    Everything else is unaffected by these reactions, whatever the emoji:
    apart from that one property, the store is the one obtained by
    running the sequence without them, and [users] and [typingUsers] are
    untouched. *)
Theorem reactions_are_additive s messageId emoji i msg evs :
  reachable s →
  find_message messageId (messages s) = Some (i, msg) →
  Forall is_reaction evs →
  let n := Z.of_nat (length (filter (reacts_to messageId emoji) evs)) in
  let s' := (run evs s).1 in
  let others := filter (λ a, ¬ reacts_to messageId emoji a) evs in
  (Js.prototype emoji = Js.undefined →
   ∃ msg',
     find_message messageId (messages s') = Some (i, msg') ∧
     Msg.count emoji msg' = Msg.count emoji msg + n ∧
     (Msg.reactions msg = ∅ → Msg.count emoji msg' = n)) ∧
  forget i emoji (messages s') = forget i emoji (messages (run others s).1) ∧
  users s' = users s ∧
  typingUsers s' = typingUsers s.
Proof.
  intros Hs Hf Hall n s' others.
  split_and!.
  - intros Hproto.
    assert (numeric emoji msg) as Hnum.
    { apply reactions_ok_numeric; [|done].
      apply (reachable_reactions_ok s Hs).
      apply find_message_Some in Hf as (Hi & _ & _).
      apply list_elem_of_lookup. eauto. }
    destruct (run_reactions_count messageId emoji i evs s msg Hproto Hnum
                Hall Hf) as (msg' & Hf' & Hc).
    exists msg'. split_and!; [done|done|].
    intros Hempty. rewrite Hc. unfold Msg.count at 1.
    by rewrite Hempty, lookup_empty.
  - by apply run_reactions_forget with msg.
  - by apply run_reactions_frame.
  - by apply run_reactions_frame.
Qed.

Lemma reactions_are_additive_witness :
  reachable Seen.store ∧
  find_message 1000 (messages Seen.store) = Some (0%nat, Reactions.sent) ∧
  Forall is_reaction Reactions.arrivals ∧
  Js.prototype "👍" = Js.undefined ∧
  Z.of_nat (length (filter (reacts_to 1000 "👍") Reactions.arrivals)) = 2 ∧
  ∃ msg',
    find_message 1000 (messages (run Reactions.arrivals Seen.store).1)
    = Some (0%nat, msg') ∧
    Msg.count "👍" msg' = 2.
Proof.
  assert (reachable Seen.store) as Hr by apply reachable_run, reachable_init.
  assert (Forall is_reaction Reactions.arrivals) as Hall
    by (repeat constructor).
  split; [exact Hr|]. split; [reflexivity|]. split; [exact Hall|].
  split; [reflexivity|]. split; [reflexivity|].
  destruct (reactions_are_additive Seen.store 1000 "👍" 0 Reactions.sent
              Reactions.arrivals Hr eq_refl Hall) as (Hcount & _).
  destruct (Hcount eq_refl) as (msg' & Hf & _ & Hn).
  exists msg'. split; [exact Hf|]. exact (Hn eq_refl).
Defined.

(** ** Further facts about the store *)

(** The store never holds more than 200 messages. *)
Theorem store_is_bounded s : reachable s → (length (messages s) ≤ 200)%nat.
Proof. intros Hs. by destruct (reachable_wf _ Hs). Qed.

Lemma store_is_bounded_witness :
  reachable Eviction.store ∧ (length (messages Eviction.store) ≤ 200)%nat.
Proof.
  assert (reachable Eviction.store) as Hr by apply reachable_run, reachable_init.
  split; [exact Hr|]. exact (store_is_bounded Eviction.store Hr).
Defined.

Lemma find_message_absent messageId ms :
  (∀ m, m ∈ ms → Msg.id m ≠ messageId) → find_message messageId ms = None.
Proof. by intros ?%find_message_None. Qed.

(** When a send drops the oldest message of a full store and no message
    left in the store has the same id, a reaction to that id and a
    [message_seen] for it change nothing and make no call. *)
Theorem evicted_id_not_found sid clk data s user m0 ms sid' clk' emoji :
  JsObject.get (users s) sid = Some user →
  messages s = m0 :: ms →
  length (messages s) = 200%nat →
  (∀ m, m ∈ ms → Msg.id m ≠ Msg.id m0) →
  now clk ≠ Msg.id m0 →
  let s' := (handle sid clk (send_message data) s).1 in
  handle sid' clk' (message_reaction (Msg.id m0) emoji) s' = (s', []) ∧
  handle sid' clk' (message_seen (Msg.id m0)) s' = (s', []).
Proof.
  intros Hu Hms Hlen Hids Hnow s'.
  assert (find_message (Msg.id m0) (messages s') = None) as Hf.
  { apply find_message_absent. subst s'.
    rewrite (send_full_store sid clk data s user m0 ms Hu Hms Hlen).
    intros m [Hin| ->%list_elem_of_singleton]%elem_of_app;
      [by apply Hids|done]. }
  split.
  - by apply reaction_not_found.
  - simpl. unfold on_message_seen. rewrite Hf.
    by destruct (JsObject.get (users s') sid').
Qed.

Lemma ids_increase_insert ms j m m' :
  ms !! j = Some m → Msg.id m' = Msg.id m →
  ids_increase ms → ids_increase (<[j := m']> ms).
Proof.
  intros Hj Hid Hinc i k mi mk Hlt Hi Hk.
  assert (∀ n x, <[j := m']> ms !! n = Some x →
                 ∃ y, ms !! n = Some y ∧ Msg.id x = Msg.id y) as Hsame.
  { intros n x Hn. destruct (decide (j = n)) as [->|Hne].
    - rewrite list_lookup_insert_eq in Hn by (by eapply lookup_lt_Some).
      injection Hn as <-. eauto.
    - rewrite list_lookup_insert_ne in Hn by done. eauto. }
  destruct (Hsame _ _ Hi) as (yi & Hyi & ->).
  destruct (Hsame _ _ Hk) as (yk & Hyk & ->).
  by eapply Hinc.
Qed.

Lemma ids_increase_push msg ms :
  ids_increase ms → (∀ m, m ∈ ms → Msg.id m < Msg.id msg) →
  ids_increase (push_capped msg ms).
Proof.
  intros Hinc Hnew.
  assert (ids_increase (ms ++ [msg])) as Happ.
  { intros i j mi mj Hlt Hi Hj.
    assert (j < length (ms ++ [msg]))%nat as Hjlen by (by eapply lookup_lt_Some).
    rewrite length_app in Hjlen. simpl in Hjlen.
    assert (ms !! i = Some mi) as Hi' by (rewrite lookup_app_l in Hi; [done|lia]).
    destruct (decide (j < length ms)%nat) as [Hjl|Hjl].
    - rewrite lookup_app_l in Hj by done.
      exact (Hinc i j mi mj Hlt Hi' Hj).
    - rewrite lookup_app_r in Hj by lia.
      replace (j - length ms)%nat with 0%nat in Hj by lia.
      injection Hj as <-. apply Hnew, list_elem_of_lookup. eauto. }
  unfold push_capped, shift. simpl. case_decide; [|done].
  intros i j mi mj Hlt Hi Hj. rewrite lookup_drop in Hi, Hj.
  eapply Happ; [|done|done]. lia.
Qed.

(** As long as every send reads a [Date.now()] greater than all the ids
    in the store, the ids increase strictly along the store, so no two
    stored messages share an id. *)
Theorem ids_increase_with_the_clock s a :
  ids_increase (messages s) →
  (∀ m, m ∈ messages s → Msg.id m < now a.1.2) →
  ids_increase (messages (step s a).1) ∧
  NoDup (Msg.id <$> messages (step s a).1).
Proof.
  intros Hinc Hclk.
  assert (ids_increase (messages (step s a).1)) as Hinc'.
  { destruct a as [[sid clk] ev]. unfold step. simpl in *.
    destruct ev; simpl; try done.
    - unfold on_send_message. destruct (JsObject.get _ _) as [user|]; [|done].
      simpl. by apply ids_increase_push.
    - unfold on_typing. by destruct (JsObject.get _ _).
    - unfold on_message_reaction.
      destruct (find_message _ _) as [[j m]|] eqn:Hf; [|done]. simpl.
      apply find_message_Some in Hf as (Hj & _ & _).
      apply ids_increase_insert with m; rewrite ?add_reaction_id; done.
    - unfold on_disconnect. by destruct (JsObject.get _ _).
    - unfold on_message_seen. destruct (JsObject.get _ _); [|done].
      destruct (find_message _ _) as [[j m]|] eqn:Hf; [|done].
      case_decide; [done|]. simpl.
      apply find_message_Some in Hf as (Hj & _ & _).
      by apply ids_increase_insert with m. }
  split; [done|]. apply NoDup_alt. intros i j x Hi Hj.
  rewrite list_lookup_fmap in Hi, Hj.
  destruct (messages (step s a).1 !! i) as [mi|] eqn:Hmi; [|done].
  destruct (messages (step s a).1 !! j) as [mj|] eqn:Hmj; [|done].
  simpl in Hi, Hj. injection Hi as <-. injection Hj as Hj.
  destruct (lt_eq_lt_dec i j) as [[Hlt| ->]|Hlt]; [|done|].
  - pose proof (Hinc' i j mi mj Hlt Hmi Hmj). lia.
  - pose proof (Hinc' j i mj mi Hlt Hmj Hmi). lia.
Qed.

Lemma ids_increase_with_the_clock_witness :
  ids_increase (messages Seen.store) ∧
  NoDup (Msg.id <$> messages
           (step Seen.store
              ("b1", Scenario.at_ 1001,
               send_message {[ "text" := "hello"; "image" := "" ]})).1).
Proof.
  assert (ids_increase (messages Seen.store)) as Hinc.
  { intros i j mi mj Hlt Hi Hj.
    destruct i as [|i], j as [|j]; try (exfalso; lia); discriminate Hj. }
  split; [exact Hinc|].
  refine (proj2 (ids_increase_with_the_clock Seen.store
            ("b1", Scenario.at_ 1001,
             send_message {[ "text" := "hello"; "image" := "" ]}) Hinc _)).
  intros m Hm. apply list_elem_of_singleton in Hm. subst m. reflexivity.
Defined.

Lemma evicted_id_not_found_witness :
  JsObject.get (users CrossRoom.store) "b1" = Some CrossRoom.bob ∧
  length (messages CrossRoom.store) = 200%nat ∧
  let s' := (handle "b1" (Scenario.at_ 2000)
               (send_message {[ "text" := "hi"; "image" := "" ]})
               CrossRoom.store).1 in
  handle "a1" (Scenario.at_ 2001) (message_reaction 1000 "👍") s' = (s', []).
Proof.
  assert (JsObject.get (users CrossRoom.store) "b1" = Some CrossRoom.bob)
    as Hu by (vm_compute; reflexivity).
  assert (messages CrossRoom.store
          = CrossRoom.oldest :: drop 1 (messages CrossRoom.store))
    as Hms by (vm_compute; reflexivity).
  assert (length (messages CrossRoom.store) = 200%nat)
    as Hlen by (vm_compute; reflexivity).
  assert (∀ m, m ∈ drop 1 (messages CrossRoom.store) →
               Msg.id m ≠ Msg.id CrossRoom.oldest) as Hids.
  { apply Forall_forall.
    apply (bool_decide_unpack
             (Forall (λ m, Msg.id m ≠ Msg.id CrossRoom.oldest)
                     (drop 1 (messages CrossRoom.store)))).
    vm_compute. exact I. }
  split; [exact Hu|]. split; [exact Hlen|].
  exact (proj1 (evicted_id_not_found "b1" (Scenario.at_ 2000)
                  {[ "text" := "hi"; "image" := "" ]} CrossRoom.store
                  CrossRoom.bob CrossRoom.oldest
                  (drop 1 (messages CrossRoom.store)) "a1" (Scenario.at_ 2001)
                  "👍" Hu Hms Hlen Hids ltac:(discriminate))).
Defined.

(** Every stored message was seen by its sender. *)
Theorem sender_has_seen s m :
  reachable s → m ∈ messages s → Msg.sender m ∈ Msg.seenBy m.
Proof. intros Hs Hm. by apply (wf_sender s (reachable_wf _ Hs)). Qed.

Lemma sender_has_seen_witness :
  reachable Seen.store ∧ Reactions.sent ∈ messages Seen.store ∧
  Msg.sender Reactions.sent ∈ Msg.seenBy Reactions.sent.
Proof.
  assert (reachable Seen.store) as Hr by apply reachable_run, reachable_init.
  assert (Reactions.sent ∈ messages Seen.store) as Hin by (by left).
  split; [exact Hr|]. split; [exact Hin|].
  exact (sender_has_seen Seen.store Reactions.sent Hr Hin).
Defined.

Lemma push_capped_drop msg ms :
  push_capped msg ms
  = drop (if decide (200 < length (ms ++ [msg]))%nat then 1 else 0)
         (ms ++ [msg]).
Proof. unfold push_capped, shift. simpl. by case_decide. Qed.

(** Sends of joined sockets fill the store in arrival order and the store
    keeps the last 200 messages: after any sequence of such sends the
    store is the old store followed by the new messages, without as many
    of the oldest as exceed 200. *)
Theorem sends_keep_the_last_200 evs : ∀ s,
  (length (messages s) ≤ 200)%nat →
  Forall (λ a, is_Some (created (users s) a)) evs →
  let all := messages s ++ omap (created (users s)) evs in
  messages (run evs s).1 = drop (length all - 200) all ∧
  users (run evs s).1 = users s.
Proof.
  induction evs as [|[[sid clk] ev] evs IH]; intros s Hlen Hall.
  - simpl. rewrite app_nil_r. split; [|done].
    replace (length (messages s) - 200)%nat with 0%nat by lia. done.
  - apply Forall_cons in Hall as [[msg Hmsg] Hall].
    pose proof Hmsg as Hc. unfold created in Hc. simpl in Hc.
    destruct ev as [|data| | | | |]; try done.
    destruct (JsObject.get (users s) sid) as [user|] eqn:Hu; [|done].
    simpl in Hc. injection Hc as Hc.
    assert (step s (sid, clk, send_message data)
            = (with_messages (push_capped msg (messages s)) s,
               [ io_to_emit (User.room user) (Out.receive_message msg) ]))
      as Hstep.
    { unfold step. simpl fst. simpl snd.
      by rewrite (send_joined _ _ _ _ _ Hu), Hc. }
    cbv zeta.
    change (run ((sid, clk, send_message data) :: evs) s).1
      with (run evs (step s (sid, clk, send_message data)).1).1.
    change (omap (created (users s)) ((sid, clk, send_message data) :: evs))
      with (match created (users s) (sid, clk, send_message data) with
            | Some y => y :: omap (created (users s)) evs
            | None => omap (created (users s)) evs
            end).
    rewrite Hstep, Hmsg. simpl fst.
    set (s1 := with_messages (push_capped msg (messages s)) s).
    assert (users s1 = users s) as Hus by done.
    destruct (IH s1) as [Hms Husers].
    { subst s1. simpl. rewrite length_push_capped. case_decide; lia. }
    { by rewrite Hus. }
    rewrite Hms, Husers, Hus. split; [|done]. subst s1. simpl messages.
    set (rest := omap (created (users s)) evs).
    rewrite push_capped_drop.
    replace (messages s ++ msg :: rest)
      with ((messages s ++ [msg]) ++ rest) by (by rewrite <-app_assoc).
    rewrite <-(drop_app_le (messages s ++ [msg]) rest)
      by (rewrite length_app; case_decide; simpl; lia).
    rewrite drop_drop. f_equal.
    rewrite length_drop, !length_app. rewrite length_app in *. simpl in *.
    case_decide; lia.
Qed.

Lemma sends_keep_the_last_200_witness :
  (length (messages EmptySend.alice_joined) ≤ 200)%nat ∧
  Forall (λ a, is_Some (created (users EmptySend.alice_joined) a))
         Backfill.sends ∧
  Msg.id <$> messages (run Backfill.sends EmptySend.alice_joined).1
  = seqZ 1050 200.
Proof.
  assert (Forall (λ a, is_Some (created (users EmptySend.alice_joined) a))
                 Backfill.sends) as Hall.
  { apply (bool_decide_unpack
             (Forall (λ a, is_Some (created (users EmptySend.alice_joined) a))
                     Backfill.sends)).
    vm_compute. exact I. }
  split; [simpl; lia|]. split; [exact Hall|].
  rewrite (proj1 (sends_keep_the_last_200 Backfill.sends
                    EmptySend.alice_joined ltac:(simpl; lia) Hall)).
  vm_compute. reflexivity.
Defined.

(** ** Typing *)

Lemma elem_of_keys_set {V} (o : list (string * V)) k k' v :
  k' ∈ JsObject.keys (JsObject.set o k v) ↔ k' = k ∨ k' ∈ JsObject.keys o.
Proof.
  rewrite keys_set. case_decide as Hk.
  - split; [by right|]. by intros [->|?].
  - rewrite elem_of_app, list_elem_of_singleton.
    split; intros [?|?]; auto.
Qed.

Lemma elem_of_keys_delete {V} (o : list (string * V)) k k' :
  k' ∈ JsObject.keys (JsObject.delete o k) ↔ k' ≠ k ∧ k' ∈ JsObject.keys o.
Proof.
  unfold JsObject.keys. rewrite !list_elem_of_fmap. split.
  - intros ([k0 v0] & -> & [Hne Hin]%elem_of_delete). split; [done|].
    by exists (k0, v0).
  - intros [Hne ([k0 v0] & -> & Hin)]. exists (k0, v0). split; [done|].
    by apply elem_of_delete.
Qed.

(** Only sockets that have joined, and not yet disconnected, have a
    typing entry. *)
Theorem typing_entries_are_joined s k :
  reachable s →
  k ∈ JsObject.keys (typingUsers s) → is_Some (JsObject.get (users s) k).
Proof.
  intros Hs. revert k. induction Hs as [|s [[sid clk] ev] Hs IH]; intros k.
  { by intros ?%elem_of_nil. }
  handler_cases sid clk ev; try (by apply IH).
  - intros Hk%IH. destruct (decide (sid = k)) as [->|Hne].
    + by rewrite get_set_eq.
    + by rewrite get_set_ne.
  - destruct isTyping.
    + intros [->|Hk]%elem_of_keys_set; [by rewrite Hu|by apply IH].
    + intros [_ Hk]%elem_of_keys_delete. by apply IH.
  - intros [Hne Hk%IH]%elem_of_keys_delete. by rewrite get_delete_ne.
Qed.

Lemma typing_entries_are_joined_witness :
  reachable Typing.store ∧
  "b1" ∈ JsObject.keys (typingUsers Typing.store) ∧
  is_Some (JsObject.get (users Typing.store) "b1").
Proof.
  assert (reachable Typing.store) as Hr by apply reachable_run, reachable_init.
  assert ("b1" ∈ JsObject.keys (typingUsers Typing.store)) as Hk
    by (right; left).
  split; [exact Hr|]. split; [exact Hk|].
  exact (typing_entries_are_joined Typing.store "b1" Hr Hk).
Defined.

Lemma roomTyping_set_other (us : list (string * User.t))
    (ty : list (string * string)) sid name room :
  User.room <$> JsObject.get us sid ≠ Some room →
  roomTyping us (JsObject.set ty sid name) room = roomTyping us ty room.
Proof.
  intros Hroom. unfold roomTyping, JsObject.entries. f_equal.
  induction ty as [|[k0 v0] ty IH]; simpl.
  - by rewrite filter_cons_False.
  - destruct (decide (k0 = sid)) as [->|Hne].
    + by rewrite !filter_cons_False.
    + by rewrite !filter_cons, IH.
Qed.

Lemma roomTyping_delete_other (us : list (string * User.t))
    (ty : list (string * string)) sid room :
  User.room <$> JsObject.get us sid ≠ Some room →
  roomTyping us (JsObject.delete ty sid) room = roomTyping us ty room.
Proof.
  intros Hroom. unfold roomTyping, JsObject.entries. f_equal.
  change (JsObject.delete ty sid) with (filter (λ kv, kv.1 ≠ sid) ty).
  rewrite list_filter_filter. apply list_filter_iff. intros [k n]. simpl.
  split; [by intros [? _]|]. intros Hk. split; [done|]. by intros ->.
Qed.

Lemma elem_of_roomTyping (us : list (string * User.t))
    (ty : list (string * string)) k name room :
  (k, name) ∈ ty → User.room <$> JsObject.get us k = Some room →
  name ∈ roomTyping us ty room.
Proof.
  intros Hin Hroom. unfold roomTyping, JsObject.entries.
  apply (list_elem_of_fmap_2 snd _ (k, name)).
  by apply list_elem_of_filter.
Qed.

(** A typing event of a joined socket touches that socket's entry only:
    it sets it to the user's name or removes it, leaves the entries of
    other sockets, [users] and [messages] as they are, leaves the typing
    list of every other room unchanged, and broadcasts the new typing
    list of the user's room, which names the user after [typing(true)]. *)
Theorem typing_updates_own_room_only sid clk isTyping s user :
  JsObject.get (users s) sid = Some user →
  let r := handle sid clk (typing isTyping) s in
  users r.1 = users s ∧ messages r.1 = messages s ∧
  JsObject.get (typingUsers r.1) sid
  = (if isTyping then Some (User.username user) else None) ∧
  (∀ k, k ≠ sid →
        JsObject.get (typingUsers r.1) k = JsObject.get (typingUsers s) k) ∧
  (∀ room, room ≠ User.room user →
           roomTyping (users r.1) (typingUsers r.1) room
           = roomTyping (users s) (typingUsers s) room) ∧
  (isTyping = true →
   User.username user
   ∈ roomTyping (users r.1) (typingUsers r.1) (User.room user)) ∧
  r.2 = [ io_to_emit (User.room user)
            (Out.typing_users
               (roomTyping (users r.1) (typingUsers r.1) (User.room user))) ].
Proof.
  intros Hu r. subst r. simpl. unfold on_typing. rewrite Hu. simpl.
  assert (∀ room, room ≠ User.room user →
            User.room <$> JsObject.get (users s) sid ≠ Some room) as Hother.
  { intros room Hne. rewrite Hu. simpl. congruence. }
  split_and!; try done.
  - destruct isTyping; [apply get_set_eq|apply get_delete_eq].
  - intros k Hk. destruct isTyping; [by apply get_set_ne|by apply get_delete_ne].
  - intros room Hne. destruct isTyping.
    + by apply roomTyping_set_other, Hother.
    + by apply roomTyping_delete_other, Hother.
  - intros ->. apply elem_of_roomTyping with sid.
    + apply get_Some_elem, get_set_eq.
    + by rewrite Hu.
Qed.

Lemma typing_updates_own_room_only_witness :
  JsObject.get (users Typing.store) "a1"
  = Some (User.mk "alice" "General" "a1") ∧
  let r := handle "a1" (Scenario.at_ 5) (typing false) Typing.store in
  JsObject.get (typingUsers r.1) "a1" = None ∧
  r.2 = [ io_to_emit "General" (Out.typing_users ["bob"]) ].
Proof.
  split; [reflexivity|].
  pose proof (typing_updates_own_room_only "a1" (Scenario.at_ 5) false
                Typing.store (User.mk "alice" "General" "a1") eq_refl)
    as (_ & _ & Hget & _ & _ & _ & Hout).
  split; [exact Hget|]. rewrite Hout. reflexivity.
Defined.

(** ** Joining a room from another *)

Lemma values_set_others (o : list (string * User.t)) sid v :
  (∀ k u, (k, u) ∈ o → User.id u = k) → User.id v = sid →
  filter (λ u, User.id u ≠ sid) (JsObject.values (JsObject.set o sid v))
  = filter (λ u, User.id u ≠ sid) (JsObject.values o).
Proof.
  intros Hid Hv. unfold JsObject.values.
  induction o as [|[k0 u0] o IH]; csimpl.
  - by rewrite filter_cons_False by (intros ?; done).
  - assert (User.id u0 = k0) as Hu0 by (apply Hid; left).
    destruct (decide (k0 = sid)) as [->|Hne]; csimpl.
    + rewrite !filter_cons_False; [done|by intros ?|by intros ?].
    + rewrite !filter_cons. rewrite IH; [done|].
      intros k u Hin. apply Hid. by right.
Qed.

Lemma filter_all {A} (P : A → Prop) `{!∀ x, Decision (P x)} (l : list A) :
  (∀ x, x ∈ l → P x) → filter P l = l.
Proof.
  induction l as [|x l IH]; intros Hall; [done|].
  rewrite filter_cons_True by (apply Hall; left).
  f_equal. apply IH. intros y Hy. apply Hall. by right.
Qed.

Lemma filter_comm {A} (P Q : A → Prop)
    `{!∀ x, Decision (P x), !∀ x, Decision (Q x)} (l : list A) :
  filter P (filter Q l) = filter Q (filter P l).
Proof.
  rewrite !list_filter_filter. apply list_filter_iff. intros x. tauto.
Qed.

(** A join registers the socket in the new room only: in every room the
    other sockets are listed as before, in the same order, and the socket
    is no longer listed in any other room.  The join touches neither
    [messages] nor [typingUsers], so a socket that was typing is in the
    typing list of its new room under the name it was typing with. *)
Theorem join_moves_the_user sid clk username room s :
  reachable s →
  let r := handle sid clk (user_join username room) s in
  (∀ other,
     filter (λ u, User.id u ≠ sid) (roomUsers (users r.1) other)
     = filter (λ u, User.id u ≠ sid) (roomUsers (users s) other)) ∧
  (∀ other, other ≠ room →
     roomUsers (users r.1) other
     = filter (λ u, User.id u ≠ sid) (roomUsers (users s) other)) ∧
  messages r.1 = messages s ∧
  typingUsers r.1 = typingUsers s ∧
  (∀ name, JsObject.get (typingUsers s) sid = Some name →
           name ∈ roomTyping (users r.1) (typingUsers r.1) room).
Proof.
  intros Hs r.
  assert (reachable r.1) as Hr
    by apply (reachable_step s (sid, clk, user_join username room) Hs).
  destruct (reachable_wf _ Hs) as [_ Hid _ _ _ _].
  destruct (reachable_wf _ Hr) as [Hk' Hid' _ _ _ _].
  assert (∀ other,
     filter (λ u, User.id u ≠ sid) (roomUsers (users r.1) other)
     = filter (λ u, User.id u ≠ sid) (roomUsers (users s) other)) as Hothers.
  { intros other. unfold roomUsers. subst r. simpl.
    rewrite !(filter_comm (λ u, User.id u ≠ sid)).
    by rewrite values_set_others. }
  split_and!; try done.
  - intros other Hne. rewrite <-Hothers. symmetry. apply filter_all.
    intros u [Hroom [k Hin]]%elem_of_roomUsers Hu.
    rewrite (Hid' k u Hin) in Hu. subst k.
    apply (elem_get _ _ _ Hk') in Hin.
    subst r. simpl in Hin. rewrite get_set_eq in Hin.
    injection Hin as <-. simpl in Hroom. congruence.
  - intros name Hname. apply elem_of_roomTyping with sid.
    + by apply get_Some_elem.
    + subst r. simpl. by rewrite get_set_eq.
Qed.

Lemma join_moves_the_user_witness :
  reachable Rejoin.before ∧
  let r := handle "b1" (Scenario.at_ 4) (user_join "bobby" "Random")
             Rejoin.before in
  roomUsers (users Rejoin.before) "General"
  = [User.mk "alice" "General" "a1"; User.mk "bob" "General" "b1"] ∧
  roomUsers (users r.1) "General" = [User.mk "alice" "General" "a1"] ∧
  "bob" ∈ roomTyping (users r.1) (typingUsers r.1) "Random".
Proof.
  assert (reachable Rejoin.before) as Hr by apply reachable_run, reachable_init.
  split; [exact Hr|].
  pose proof (join_moves_the_user "b1" (Scenario.at_ 4) "bobby" "Random"
                Rejoin.before Hr) as (_ & Hother & _ & _ & Hty).
  split; [reflexivity|]. split.
  - rewrite (Hother "General") by discriminate. reflexivity.
  - exact (Hty "bob" eq_refl).
Defined.

(** ** More on reactions and seen receipts *)

(** What the [reactions] of a stored message hold.  ['__proto__'] is
    never a property of its own.  Under a name that [Object.prototype]
    does not define the value is a count of at least 1: an emoji is a key
    of [msg.reactions] only once somebody reacted with it.  Under a name
    that [Object.prototype] defines the value is no count but a string
    that is not empty. *)
Theorem stored_reactions_are_counts_or_texts s m emoji v :
  reachable s → m ∈ messages s → Msg.reactions m !! emoji = Some v →
  emoji ≠ "__proto__" ∧
  match Js.prototype emoji with
  | Js.undefined => ∃ n, v = Js.num n ∧ 1 ≤ n
  | _ => ∃ t, v = Js.str t ∧ t ≠ ""
  end.
Proof. intros Hs Hm. by apply (reachable_reactions_ok s Hs m Hm). Qed.

Lemma stored_reactions_are_counts_or_texts_witness :
  let s := (run (Reactions.arrivals
                 ++ [("b1", Scenario.at_ 1005,
                      message_reaction 1000 "valueOf")]) Seen.store).1 in
  let m := add_reaction "valueOf"
             (add_reaction "👍" (add_reaction "❤️"
                (add_reaction "👍" Reactions.sent))) in
  reachable s ∧ m ∈ messages s ∧
  Msg.reactions m !! "👍" = Some (Js.num 2) ∧
  Msg.reactions m !! "valueOf"
  = Some (Js.str "function valueOf() { [native code] }1") ∧
  (∃ n, Js.num 2 = Js.num n ∧ 1 ≤ n) ∧
  (∃ t, Js.str "function valueOf() { [native code] }1" = Js.str t ∧ t ≠ "").
Proof.
  intros s m.
  assert (reachable s) as Hr by apply reachable_run, reachable_run, reachable_init.
  assert (m ∈ messages s) as Hin by (vm_compute; left).
  split; [exact Hr|]. split; [exact Hin|].
  split; [reflexivity|]. split; [reflexivity|]. split.
  - exact (proj2 (stored_reactions_are_counts_or_texts s m "👍" _ Hr Hin
                    eq_refl)).
  - exact (proj2 (stored_reactions_are_counts_or_texts s m "valueOf" _ Hr Hin
                    eq_refl)).
Defined.

(** The sender's name is the first of [seenBy] and occurs there once. *)
Lemma sender_seen_first s m :
  reachable s → m ∈ messages s →
  ∃ rest, Msg.seenBy m = Msg.sender m :: rest ∧ Msg.sender m ∉ rest.
Proof.
  intros Hs Hm.
  assert (∃ rest, Msg.seenBy m = Msg.sender m :: rest) as [rest Hrest].
  { revert m Hm. induction Hs as [|s [[sid clk] ev] Hs IH]; intros m.
    { by intros ?%elem_of_nil. }
    handler_cases sid clk ev; try (by apply IH).
    - intros [Hin| ->]%elem_of_push_capped; [by apply IH|]. by exists [].
    - apply find_message_Some in Hf as (Hi & _ & _).
      intros [->|Hin]%elem_of_insert_inv; [|by apply IH].
      rewrite add_reaction_seenBy, add_reaction_sender.
      apply IH. apply list_elem_of_lookup. eauto.
    - apply find_message_Some in Hf as (Hi & _ & _).
      intros [->|Hin]%elem_of_insert_inv; [|by apply IH]. simpl.
      destruct (IH msg) as [rest Hrest];
        [apply list_elem_of_lookup; eauto|].
      exists (rest ++ [User.username user]). by rewrite Hrest. }
  exists rest. split; [done|].
  pose proof (wf_seenBy s (reachable_wf _ Hs) m Hm) as Hnd.
  rewrite Hrest in Hnd. by apply NoDup_cons in Hnd as [? _].
Qed.

(** A [message_seen] from a user for a message sent under the same
    display name changes nothing and is not broadcast. *)
Theorem own_message_is_already_seen sid clk messageId s user i msg :
  reachable s →
  JsObject.get (users s) sid = Some user →
  find_message messageId (messages s) = Some (i, msg) →
  Msg.sender msg = User.username user →
  handle sid clk (message_seen messageId) s = (s, []).
Proof.
  intros Hs Hu Hf Hsender. apply (seen_already sid clk _ _ user i msg Hu Hf).
  rewrite <-Hsender. apply (wf_sender s (reachable_wf _ Hs)).
  apply find_message_Some in Hf as (Hi & _ & _).
  apply list_elem_of_lookup. eauto.
Qed.

Lemma own_message_is_already_seen_witness :
  reachable Seen.store ∧
  handle "a1" (Scenario.at_ 1001) (message_seen 1000) Seen.store
  = (Seen.store, []).
Proof.
  assert (reachable Seen.store) as Hr by apply reachable_run, reachable_init.
  split; [exact Hr|].
  exact (own_message_is_already_seen "a1" (Scenario.at_ 1001) 1000 Seen.store
           (User.mk "alice" "General" "a1") 0 Reactions.sent Hr
           eq_refl eq_refl eq_refl).
Defined.

(** The line under a stored message lists, in the order they marked it,
    exactly the names that saw it after the sender, and is absent when
    nobody else has seen it. *)
Theorem seen_by_line_lists_the_others s m :
  reachable s → m ∈ messages s →
  App.seen_by_line m =
  match tail (Msg.seenBy m) with
  | [] => None
  | others => Some ("Seen by: " +:+ String.concat ", " others)
  end.
Proof.
  intros Hs Hm. destruct (sender_seen_first s m Hs Hm) as (rest & Hrest & Hnot).
  unfold App.seen_by_line. rewrite Hrest. simpl.
  rewrite filter_cons_False by (intros ?; done).
  rewrite filter_all by (intros x Hx ->; done).
  destruct rest as [|x rest].
  - by rewrite decide_False by (simpl; lia).
  - by rewrite decide_True by (simpl; lia).
Qed.

Lemma seen_by_line_lists_the_others_witness :
  reachable SeenByTwo.store ∧ SeenByTwo.seen ∈ messages SeenByTwo.store ∧
  App.seen_by_line SeenByTwo.seen = Some "Seen by: bob, carol".
Proof.
  assert (reachable SeenByTwo.store) as Hr
    by apply reachable_run, reachable_run, reachable_init.
  assert (SeenByTwo.seen ∈ messages SeenByTwo.store) as Hin by (by left).
  split; [exact Hr|]. split; [exact Hin|].
  rewrite (seen_by_line_lists_the_others SeenByTwo.store SeenByTwo.seen Hr Hin).
  reflexivity.
Defined.

(** ** The HTTP routes *)

(** [GET /api/users] lists every joined socket once, under its own id,
    and lists nothing else. *)
Theorem api_users_lists_each_socket_once s :
  reachable s →
  NoDup (User.id <$> api_users s) ∧
  (∀ u, u ∈ api_users s ↔ JsObject.get (users s) (User.id u) = Some u) ∧
  length (api_users s) = length (JsObject.keys (users s)).
Proof.
  intros Hs. destruct (reachable_wf _ Hs) as [Hk Hid _ _ _ _].
  unfold api_users. split_and!.
  - by rewrite values_ids.
  - intros u. unfold JsObject.values. split.
    + intros ([k u'] & -> & Hin)%list_elem_of_fmap. simpl.
      rewrite (Hid k u' Hin). by apply elem_get.
    + intros Hget%get_Some_elem.
      by apply (list_elem_of_fmap_2 snd _ (User.id u, u)).
  - unfold JsObject.values, JsObject.keys. by rewrite !length_fmap.
Qed.

Lemma api_users_lists_each_socket_once_witness :
  reachable Typing.store ∧
  api_users Typing.store
  = [User.mk "alice" "General" "a1"; User.mk "bob" "General" "b1"] ∧
  NoDup (User.id <$> api_users Typing.store).
Proof.
  assert (reachable Typing.store) as Hr by apply reachable_run, reachable_init.
  split; [exact Hr|]. split; [reflexivity|].
  exact (proj1 (api_users_lists_each_socket_once Typing.store Hr)).
Defined.

Lemma api_messages_filter room s :
  api_messages room s = filter (listed room) (messages s).
Proof.
  destruct room as [r|]; simpl.
  - case_decide as Hr.
    + symmetry. apply filter_all. intros m _. by left.
    + apply list_filter_iff. intros m. simpl. split; [by right|].
      by intros [?|?].
  - symmetry. by apply filter_all.
Qed.

Lemma filter_drop_1 {A} (P : A → Prop) `{!∀ x, Decision (P x)} (l : list A) :
  ∃ k, (k ≤ 1)%nat ∧ filter P (drop 1 l) = drop k (filter P l).
Proof.
  destruct l as [|x l].
  - exists 0%nat. split; [lia|done].
  - simpl. rewrite filter_cons. case_decide.
    + exists 1%nat. split; [lia|done].
    + exists 0%nat. split; [lia|done].
Qed.

(** A send changes what [GET /api/messages] returns for a room in two
    ways only: the new message is appended when it is listed for that
    room (its room is the sender's), and the oldest listed message may be
    gone, which happens only when the store already held 200 messages.
    So a send in one room never shows in the history of another. *)
Theorem history_after_send sid clk data s user room :
  JsObject.get (users s) sid = Some user →
  let s' := (handle sid clk (send_message data) s).1 in
  let msg := new_message sid clk user data in
  Msg.room msg = User.room user ∧
  ∃ k, (k ≤ 1)%nat ∧
       ((length (messages s) < 200)%nat → k = 0%nat) ∧
       api_messages room s'
       = drop k (api_messages room s)
         ++ (if decide (listed room msg) then [msg] else []).
Proof.
  intros Hu s' msg. split; [done|]. subst s'.
  rewrite (send_joined _ _ _ _ _ Hu). simpl. rewrite !api_messages_filter.
  simpl. fold msg. unfold push_capped, shift. simpl.
  assert (filter (listed room) [msg]
          = if decide (listed room msg) then [msg] else []) as Hlast.
  { rewrite filter_cons. by case_decide. }
  rewrite <-Hlast. clear Hlast.
  destruct (decide (200 < length (messages s ++ [msg]))%nat) as [Hfull|Hfull].
  - destruct (messages s) as [|m0 ms] eqn:Hms.
    { simpl in Hfull. lia. }
    change (drop 1 ((m0 :: ms) ++ [msg])) with (ms ++ [msg]).
    rewrite filter_app.
    destruct (filter_drop_1 (listed room) (m0 :: ms)) as (k & Hk & Hdrop).
    change (drop 1 (m0 :: ms)) with ms in Hdrop.
    exists k. split; [done|]. split.
    + rewrite length_app in Hfull. simpl in *. lia.
    + by rewrite Hdrop.
  - exists 0%nat. split; [lia|]. split; [done|].
    by rewrite filter_app.
Qed.

Lemma history_after_send_witness :
  JsObject.get (users CrossRoom.store) "b1" = Some CrossRoom.bob ∧
  let s' := (handle "b1" (Scenario.at_ 2000)
               (send_message {[ "text" := "hi"; "image" := "" ]})
               CrossRoom.store).1 in
  length (api_messages (Some "General") CrossRoom.store) = 200%nat ∧
  length (api_messages (Some "General") s') = 199%nat ∧
  Msg.text <$> api_messages (Some "Random") s' = ["hi"].
Proof.
  assert (JsObject.get (users CrossRoom.store) "b1" = Some CrossRoom.bob)
    as Hu by (vm_compute; reflexivity).
  split; [exact Hu|].
  pose proof (history_after_send "b1" (Scenario.at_ 2000)
                {[ "text" := "hi"; "image" := "" ]} CrossRoom.store
                CrossRoom.bob (Some "Random") Hu) as [_ (k & _ & _ & Hrandom)].
  assert (api_messages (Some "Random") CrossRoom.store = []) as Hempty
    by (vm_compute; reflexivity).
  split; [vm_compute; reflexivity|]. split; [vm_compute; reflexivity|].
  rewrite Hrandom, Hempty, drop_nil. reflexivity.
Defined.

Lemma bare_fmap_insert (ms : list Msg.t) i m m' :
  ms !! i = Some m → bare m' = bare m → bare <$> <[i := m']> ms = bare <$> ms.
Proof.
  intros Hi Hbare. rewrite list_fmap_insert, Hbare.
  apply list_insert_id. by rewrite list_lookup_fmap, Hi.
Qed.

Lemma listed_bare room m : listed room (bare m) ↔ listed room m.
Proof. by destruct room. Qed.

Lemma bare_fmap_filter room (ms ms' : list Msg.t) :
  bare <$> ms = bare <$> ms' →
  bare <$> filter (listed room) ms = bare <$> filter (listed room) ms'.
Proof.
  revert ms'. induction ms as [|m ms IH]; intros [|m' ms'] Heq; try done.
  rewrite !fmap_cons in Heq.
  assert (bare m = bare m' ∧ bare <$> ms = bare <$> ms') as [Hm Hms].
  { set (x := bare m) in *. set (y := bare m') in *. clearbody x y.
    by injection Heq. }
  rewrite !filter_cons.
  assert (listed room m ↔ listed room m') as Hl.
  { by rewrite <-(listed_bare room m), <-(listed_bare room m'), Hm. }
  destruct (decide (listed room m)) as [H1|H1];
    destruct (decide (listed room m')) as [H2|H2]; try tauto.
  - by rewrite !fmap_cons, Hm, (IH ms').
  - by apply IH.
Qed.

(** Only sends change which messages [GET /api/messages] returns: after
    any other event the history of every room holds the same messages in
    the same order, up to their reactions and [seenBy]. *)
Theorem history_changes_by_sends_only s a room :
  (∀ data, a.2 ≠ send_message data) →
  bare <$> api_messages room (step s a).1 = bare <$> api_messages room s.
Proof.
  intros Hnot. rewrite !api_messages_filter. apply bare_fmap_filter.
  destruct a as [[sid clk] ev]. simpl in Hnot.
  handler_cases sid clk ev; try done; try (exfalso; by eapply Hnot).
  - apply find_message_Some in Hf as (Hi & _ & _).
    apply bare_fmap_insert with msg; [done|apply bare_add_reaction].
  - apply find_message_Some in Hf as (Hi & _ & _).
    by apply bare_fmap_insert with msg.
Qed.

Lemma history_changes_by_sends_only_witness :
  (∀ data, message_reaction 1000 "👍" ≠ send_message data) ∧
  bare <$> api_messages (Some "General")
             (step Seen.store
                ("b1", Scenario.at_ 1001, message_reaction 1000 "👍")).1
  = [bare Reactions.sent].
Proof.
  assert (∀ data, message_reaction 1000 "👍" ≠ send_message data) as Hnot
    by (intros data; discriminate).
  split; [exact Hnot|].
  rewrite (history_changes_by_sends_only Seen.store
             ("b1", Scenario.at_ 1001, message_reaction 1000 "👍")
             (Some "General") Hnot).
  reflexivity.
Defined.

Lemma pretty_N_go_no_dash x : ∀ s, no_dash s → no_dash (pretty_N_go x s).
Proof.
  induction (N.lt_wf_0 x) as [x _ IH]; intros s Hs.
  assert (x = 0 ∨ 0 < x)%N as [->|Hx] by lia.
  - by rewrite pretty_N_go_0.
  - rewrite pretty_N_go_step by done. apply IH.
    { by apply N.div_lt. }
    split; [|done]. unfold pretty_N_char. by repeat case_match.
Qed.

Lemma pretty_Z_no_dash (z : Z) : 0 ≤ z → no_dash (pretty z).
Proof.
  destruct z as [|p|p]; [done| |lia]. intros _.
  unfold pretty, pretty_Z, pretty, pretty_positive, pretty, pretty_N.
  case_decide; [done|]. by apply pretty_N_go_no_dash.
Qed.

Lemma split_at_first_dash d1 : ∀ d2 n1 n2,
  no_dash d1 → no_dash d2 →
  d1 +:+ "-" +:+ n1 = d2 +:+ "-" +:+ n2 → d1 = d2 ∧ n1 = n2.
Proof.
  induction d1 as [|c d1 IH]; intros [|c' d2] n1 n2 H1 H2 Heq; simpl in *.
  - split; [done|]. by injection Heq.
  - injection Heq as Hc _. destruct H2 as [Hd _]. by destruct Hd.
  - injection Heq as Hc _. destruct H1 as [Hd _]. by destruct Hd.
  - injection Heq as Hc Heq. destruct H1 as [_ H1], H2 as [_ H2].
    destruct (IH d2 n1 n2 H1 H2 Heq) as [Hd Hn]. by subst.
Qed.

(** [POST /upload] answers 400 when the request carries no file.  With a
    file it answers the URL [/uploads/<Date.now()>-<original name>], and
    two uploads get the same URL exactly when they have the same original
    name and are handled in the same millisecond. *)
Theorem upload_urls_collide_only_within_a_tick clk1 clk2 name1 name2 :
  0 ≤ now clk1 → 0 ≤ now clk2 →
  Upload.post clk1 None = Upload.bad_request "No file uploaded" ∧
  (∃ stored, Upload.post clk1 (Some name1) = Upload.ok ("/uploads/" +:+ stored)
             ∧ Upload.filename clk1 name1 = stored) ∧
  (Upload.post clk1 (Some name1) = Upload.post clk2 (Some name2)
   ↔ now clk1 = now clk2 ∧ name1 = name2).
Proof.
  intros H1 H2. split; [done|]. split; [by eexists|]. split.
  - unfold Upload.post, Upload.filename. intros [= Heq].
    apply split_at_first_dash in Heq as [Hnow ->];
      [|by apply pretty_Z_no_dash..].
    by apply (inj pretty) in Hnow.
  - intros [Hnow ->]. unfold Upload.post, Upload.filename. by rewrite Hnow.
Qed.

Lemma upload_urls_collide_only_within_a_tick_witness :
  0 ≤ now (Scenario.at_ 1700000000000) ∧
  Upload.post (Scenario.at_ 1700000000000) (Some "cat-1.png")
  = Upload.ok "/uploads/1700000000000-cat-1.png" ∧
  Upload.post (Scenario.at_ 1700000000000) (Some "cat-1.png")
  ≠ Upload.post (Scenario.at_ 1700000000001) (Some "cat-1.png").
Proof.
  split; [simpl; lia|]. split; [reflexivity|].
  intros Heq.
  apply (upload_urls_collide_only_within_a_tick
           (Scenario.at_ 1700000000000) (Scenario.at_ 1700000000001)
           "cat-1.png" "cat-1.png") in Heq as [Hnow _];
    [discriminate Hnow|simpl; lia|simpl; lia].
Defined.

(** ** The client's message list against the server's history *)

Lemma seen_update_insert (ms : list Msg.t) i msg messageId seenBy :
  NoDup (Msg.id <$> ms) → ms !! i = Some msg → Msg.id msg = messageId →
  App.on_message_seen_update messageId seenBy ms
  = <[i := Msg.with_seenBy seenBy msg]> ms.
Proof.
  intros Hnd Hi Hid. unfold App.on_message_seen_update.
  apply list_eq. intros j. rewrite list_lookup_fmap.
  destruct (decide (i = j)) as [<-|Hne].
  - rewrite list_lookup_insert_eq by (by eapply lookup_lt_Some).
    rewrite Hi. simpl. by rewrite decide_True.
  - rewrite list_lookup_insert_ne by done.
    destruct (ms !! j) as [m|] eqn:Hj; [|done]. simpl.
    rewrite decide_False; [done|]. intros Hm. apply Hne.
    apply (NoDup_lookup (Msg.id <$> ms) i j messageId Hnd).
    + by rewrite list_lookup_fmap, Hi, <-Hid.
    + by rewrite list_lookup_fmap, Hj, <-Hm.
Qed.

Lemma seen_update_filter room messageId seenBy (ms : list Msg.t) :
  App.on_message_seen_update messageId seenBy (filter (listed room) ms)
  = filter (listed room) (App.on_message_seen_update messageId seenBy ms).
Proof.
  unfold App.on_message_seen_update.
  induction ms as [|m ms IH]; [done|].
  rewrite fmap_cons, !filter_cons.
  assert (listed room (if decide (Msg.id m = messageId)
                       then Msg.with_seenBy seenBy m else m)
          ↔ listed room m) as Hl.
  { case_decide; [|done]. by destruct room. }
  destruct (decide (listed room m)) as [H1|H1].
  - rewrite decide_True by (by apply Hl). by rewrite fmap_cons, IH.
  - rewrite decide_False by (by rewrite Hl). done.
Qed.

Lemma filter_insert_unlisted room (ms : list Msg.t) i m m' :
  ms !! i = Some m → ¬ listed room m → ¬ listed room m' →
  filter (listed room) (<[i := m']> ms) = filter (listed room) ms.
Proof.
  revert i. induction ms as [|x ms IH]; intros [|i] Hi Hm Hm'; try done;
    simpl in *.
  - injection Hi as ->. by rewrite !filter_cons_False.
  - rewrite !filter_cons. by rewrite (IH i).
Qed.

Lemma api_messages_push room msg (ms : list Msg.t) :
  (length ms < 200)%nat →
  filter (listed room) (push_capped msg ms)
  = filter (listed room) ms ++ (if decide (listed room msg) then [msg] else []).
Proof.
  intros Hlen. rewrite push_capped_below by done.
  rewrite filter_app, filter_cons. by case_decide.
Qed.

(** A client shows the history of one room [room]: it starts from
    [GET /api/messages?room=room] and then runs its listeners on the
    events broadcast to [room].  While the store holds fewer than 200
    messages and no two stored messages share an id, the client's list
    after any event other than a reaction is again what the route
    returns. *)
Theorem client_history_tracks_the_server s a room self granted :
  room ≠ "" →
  (length (messages s) < 200)%nat →
  NoDup (Msg.id <$> messages s) →
  ¬ is_reaction a →
  client_messages self granted (broadcast_to room (step s a).2)
                  (api_messages (Some room) s)
  = api_messages (Some room) (step s a).1.
Proof.
  intros Hroom Hlen Hnd Hreact. rewrite !api_messages_filter.
  assert (∀ m : Msg.t, listed (Some room) m ↔ Msg.room m = room) as Hlisted.
  { intros m. simpl. split; [by intros [?|?]|by right]. }
  destruct a as [[sid clk] ev]. unfold client_messages, broadcast_to.
  handler_cases sid clk ev; try done.
  - by repeat case_decide.
  - rewrite api_messages_push by done.
    destruct (decide (User.room user = room)) as [Hr|Hr]; simpl.
    + by rewrite decide_True by (by right).
    + rewrite decide_False by (intros [?|?]; congruence).
      by rewrite app_nil_r.
  - by case_decide.
  - by repeat case_decide.
  - pose proof Hf as (Hi & Hid & _)%find_message_Some.
    destruct (decide (Msg.room msg = room)) as [Hr|Hr]; simpl.
    + rewrite seen_update_filter. f_equal.
      by apply seen_update_insert.
    + symmetry. apply filter_insert_unlisted with msg; [done|..];
        by rewrite Hlisted.
Qed.

Lemma client_history_tracks_the_server_witness :
  "General" ≠ "" ∧
  (length (messages Seen.store) < 200)%nat ∧
  NoDup (Msg.id <$> messages Seen.store) ∧
  client_messages "a1" true
    (broadcast_to "General"
       (step Seen.store ("b1", Scenario.at_ 1001, message_seen 1000)).2)
    (api_messages (Some "General") Seen.store)
  = [add_seenBy "bob" Reactions.sent].
Proof.
  assert (NoDup (Msg.id <$> messages Seen.store)) as Hnd
    by apply NoDup_singleton.
  split; [discriminate|]. split; [simpl; lia|]. split; [exact Hnd|].
  rewrite (client_history_tracks_the_server Seen.store
             ("b1", Scenario.at_ 1001, message_seen 1000) "General" "a1" true
             ltac:(discriminate) ltac:(simpl; lia) Hnd ltac:(intros [])).
  reflexivity.
Defined.

(** A reaction is broadcast as a [receive_message], which the client
    appends: when the reaction finds a message of the client's room, the
    client's list afterwards is the one before followed by the updated
    message, one entry longer than what the route returns, and it holds
    the id of that message twice. *)
Theorem reaction_is_appended_by_the_client s sid clk messageId emoji i msg
    self granted :
  find_message messageId (messages s) = Some (i, msg) →
  Msg.room msg ≠ "" →
  let room := Msg.room msg in
  let r := handle sid clk (message_reaction messageId emoji) s in
  let shown := client_messages self granted (broadcast_to room r.2)
                 (api_messages (Some room) s) in
  shown = api_messages (Some room) s ++ [add_reaction emoji msg] ∧
  length shown = S (length (api_messages (Some room) r.1)) ∧
  ¬ NoDup (Msg.id <$> shown).
Proof.
  intros Hf Hroom room r shown.
  assert (shown = api_messages (Some room) s ++ [add_reaction emoji msg])
    as Hshown.
  { subst shown r room. rewrite (reaction_found _ _ _ _ _ _ _ Hf).
    unfold client_messages, broadcast_to. simpl.
    by rewrite (decide_True (P := Msg.room msg = Msg.room msg)). }
  pose proof Hf as (Hi & Hid & _)%find_message_Some.
  assert (msg ∈ api_messages (Some room) s) as Hin.
  { rewrite api_messages_filter. apply list_elem_of_filter. split.
    - by right.
    - apply list_elem_of_lookup. eauto. }
  assert (length (api_messages (Some room) r.1)
          = length (api_messages (Some room) s)) as Hsame.
  { rewrite <-(length_fmap bare (api_messages (Some room) r.1)).
    rewrite <-(length_fmap bare (api_messages (Some room) s)). f_equal.
    subst r. rewrite !api_messages_filter. apply bare_fmap_filter.
    rewrite (reaction_found _ _ _ _ _ _ _ Hf). simpl.
    apply bare_fmap_insert with msg; [done|apply bare_add_reaction]. }
  split_and!; [done| |].
  - rewrite Hsame, Hshown, length_app. simpl. lia.
  - rewrite Hshown, fmap_app. intros Hnd%NoDup_app. simpl in Hnd.
    destruct Hnd as (_ & Hdisj & _). rewrite add_reaction_id in Hdisj.
    apply (Hdisj (Msg.id msg)); [|by left].
    by apply list_elem_of_fmap_2.
Qed.

Lemma reaction_is_appended_by_the_client_witness :
  find_message 1000 (messages Seen.store) = Some (0%nat, Reactions.sent) ∧
  Msg.room Reactions.sent ≠ "" ∧
  client_messages "a1" true
    (broadcast_to "General"
       (handle "b1" (Scenario.at_ 1001) (message_reaction 1000 "👍")
          Seen.store).2)
    (api_messages (Some "General") Seen.store)
  = [Reactions.sent; add_reaction "👍" Reactions.sent].
Proof.
  split; [reflexivity|]. split; [discriminate|].
  exact (proj1 (reaction_is_appended_by_the_client Seen.store "b1"
                  (Scenario.at_ 1001) 1000 "👍" 0 Reactions.sent "a1" true
                  eq_refl ltac:(discriminate))).
Defined.

(** ** Marking the shown messages as seen *)

(** When a [message_seen] changes nothing. *)
Lemma seen_noop sid clk messageId s :
  handle sid clk (message_seen messageId) s = (s, []) ↔
  JsObject.get (users s) sid = None ∨
  find_message messageId (messages s) = None ∨
  ∃ user i msg, JsObject.get (users s) sid = Some user ∧
                find_message messageId (messages s) = Some (i, msg) ∧
                User.username user ∈ Msg.seenBy msg.
Proof.
  simpl. unfold on_message_seen.
  destruct (JsObject.get (users s) sid) as [user|] eqn:Hu; [|by split; auto].
  destruct (find_message messageId (messages s)) as [[i msg]|] eqn:Hf;
    [|by split; auto].
  case_decide as Hin.
  - split; [|done]. intros _. right. right. by exists user, i, msg.
  - split; [intros [= _ ?]; done|].
    intros [?|[?|(u & j & m & [= <-] & [= <- <-] & ?)]]; done.
Qed.

Lemma seen_keeps_noop sid clk clk' messageId messageId' s :
  handle sid clk (message_seen messageId) s = (s, []) →
  let s' := (handle sid clk' (message_seen messageId') s).1 in
  handle sid clk (message_seen messageId) s' = (s', []).
Proof.
  intros Hnoop s'. subst s'.
  destruct (decide (handle sid clk' (message_seen messageId') s = (s, [])))
    as [->|Hchange]; [done|].
  assert (∃ user j mj,
            JsObject.get (users s) sid = Some user ∧
            find_message messageId' (messages s) = Some (j, mj) ∧
            handle sid clk' (message_seen messageId') s =
            (with_messages (<[j := add_seenBy (User.username user) mj]>
                              (messages s)) s,
             [ io_to_emit (Msg.room mj)
                 (Out.message_seen_update messageId'
                    (Msg.seenBy mj ++ [User.username user])) ]))
    as (user & j & mj & Hu & Hf' & ->).
  { revert Hchange. simpl. unfold on_message_seen.
    destruct (JsObject.get (users s) sid) as [user|]; [|done].
    destruct (find_message messageId' (messages s)) as [[j mj]|]; [|done].
    case_decide; [done|]. intros _. by exists user, j, mj. }
  simpl fst. pose proof Hf' as (Hj & _ & _)%find_message_Some.
  apply seen_noop in Hnoop as [Hnone|[Hnone|(u & i & m & Hu' & Hf & Hin)]].
  - congruence.
  - apply seen_noop. right. left. simpl.
    destruct (find_message messageId
                (<[j:=add_seenBy (User.username user) mj]> (messages s)))
      as [[i m]|] eqn:Hf; [|done].
    eapply find_message_same_ids in Hf as [m' Hm'];
      [rewrite Hnone in Hm'; done|].
    by apply insert_same_id with mj.
  - assert (u = user) as -> by congruence.
    apply seen_noop. right. right. simpl.
    assert (Msg.id <$> messages s
            = Msg.id <$> <[j:=add_seenBy (User.username user) mj]> (messages s))
      as Hids by (symmetry; by apply insert_same_id with mj).
    destruct (find_message_same_ids _ _ _ _ _ Hids Hf) as [m' Hm'].
    exists user, i, m'. split_and!; [done..|].
    pose proof Hm' as (Hi' & _ & _)%find_message_Some.
    pose proof Hf as (Hi & _ & _)%find_message_Some.
    destruct (decide (j = i)) as [->|Hne].
    + rewrite list_lookup_insert_eq in Hi' by (by eapply lookup_lt_Some).
      injection Hi' as <-. simpl. assert (mj = m) as -> by congruence.
      apply elem_of_app. by left.
    + rewrite list_lookup_insert_ne in Hi' by done.
      assert (m' = m) as -> by congruence. done.
Qed.

Lemma seen_twice sid clk clk' messageId s :
  let s' := (handle sid clk (message_seen messageId) s).1 in
  handle sid clk' (message_seen messageId) s' = (s', []).
Proof.
  intros s'. subst s'.
  destruct (JsObject.get (users s) sid) as [user|] eqn:Hu.
  2: { rewrite (unjoined_seen sid clk s Hu).
       by apply (unjoined_seen sid clk'). }
  destruct (find_message messageId (messages s)) as [[i msg]|] eqn:Hf.
  2: { assert (∀ c, handle sid c (message_seen messageId) s = (s, []))
         as Hnone by (intros c; apply seen_noop; auto).
       by rewrite !Hnone. }
  destruct (decide (User.username user ∈ Msg.seenBy msg)) as [Hin|Hnot].
  - rewrite (seen_already sid clk _ _ user i msg Hu Hf Hin).
    by apply (seen_already sid clk' _ _ user i msg).
  - rewrite (seen_new sid clk _ _ user i msg Hu Hf Hnot). simpl fst.
    apply (seen_already sid clk' _ _ user i
             (add_seenBy (User.username user) msg)).
    + done.
    + apply find_message_insert with msg; [done|].
      by apply find_message_Some in Hf as (_ & ? & _).
    + simpl. apply elem_of_app. right. by left.
Qed.

(** The arrivals of a list of [message_seen] events of one socket. *)
Lemma run_seen_noop sid clk ids : ∀ s,
  (∀ messageId, messageId ∈ ids →
                handle sid clk (message_seen messageId) s = (s, [])) →
  run ((λ messageId, (sid, clk, message_seen messageId)) <$> ids) s = (s, []).
Proof.
  induction ids as [|messageId ids IH]; intros s Hall; [done|].
  rewrite fmap_cons. simpl. unfold step. simpl fst. simpl snd.
  change (on_message_seen sid messageId s)
    with (handle sid clk (message_seen messageId) s).
  rewrite (Hall messageId) by left. simpl.
  rewrite IH; [done|]. intros id' Hin. apply Hall. by right.
Qed.

Lemma run_seen_keeps_noop sid clk clk' messageId ids : ∀ s,
  handle sid clk (message_seen messageId) s = (s, []) →
  let s' := (run ((λ id', (sid, clk', message_seen id')) <$> ids) s).1 in
  handle sid clk (message_seen messageId) s' = (s', []).
Proof.
  induction ids as [|id' ids IH]; intros s Hnoop; [done|].
  rewrite fmap_cons. simpl. apply IH.
  by apply (seen_keeps_noop sid clk clk' messageId id' s).
Qed.

Lemma run_seen_settles sid clk clk' ids : ∀ s messageId,
  messageId ∈ ids →
  let s' := (run ((λ id', (sid, clk, message_seen id')) <$> ids) s).1 in
  handle sid clk' (message_seen messageId) s' = (s', []).
Proof.
  induction ids as [|id' ids IH]; intros s messageId Hin.
  { by apply elem_of_nil in Hin. }
  rewrite fmap_cons. simpl.
  apply elem_of_cons in Hin as [->|Hin]; [|by apply IH].
  apply (run_seen_keeps_noop sid clk' clk id' ids).
  apply (seen_twice sid clk clk' id' s).
Qed.

(** The client emits the [message_seen] events of its effect each time
    its message list changes.  Once the server has handled them, handling
    the same events again changes nothing and broadcasts nothing. *)
Theorem seen_effect_settles self room shown clk clk' s :
  let arrivals c := (λ ev, (self, c, ev)) <$> App.seen_effect self room shown in
  let s1 := (run (arrivals clk) s).1 in
  run (arrivals clk') s1 = (s1, []).
Proof.
  intros arrivals s1. subst s1 arrivals. unfold App.seen_effect.
  set (ids := Msg.id <$> filter (λ m, Msg.room m = room ∧ Msg.senderId m ≠ self)
                           shown).
  assert (∀ c : Clock, (λ ev : inbound, (self, c, ev))
                 <$> ((λ m, message_seen (Msg.id m))
                        <$> filter (λ m, Msg.room m = room
                                         ∧ Msg.senderId m ≠ self) shown)
               = (λ messageId, (self, c, message_seen messageId)) <$> ids)
    as Harr.
  { intros c. subst ids. by rewrite <-!list_fmap_compose. }
  rewrite !Harr. apply run_seen_noop. intros messageId Hin.
  by apply (run_seen_settles self clk clk' ids).
Qed.

(** ** Private chats on the client *)

(** A private message is never stored by the server; it goes to the
    address [to] and back to the sender.  The sender's client then lists
    it in the private chat with whichever user is selected, not only the
    recipient; another client lists it only in the chat with the
    sender. *)
Theorem own_private_messages_show_in_every_chat self clk data s
    selectedUser prev :
  let r := handle self clk (private_message data) s in
  r.1 = s ∧
  ∃ msg,
    r.2 = [ socket_to_emit self (data !! "to") (Out.private_message msg);
            socket_emit self (Out.private_message msg) ] ∧
    msg ∈ App.private_panel self selectedUser
            (App.on_private_message msg prev) ∧
    (∀ other, other ≠ self →
       msg ∈ App.private_panel other selectedUser
               (App.on_private_message msg prev)
       ↔ User.id selectedUser = self).
Proof.
  simpl. split; [done|]. eexists. split; [reflexivity|].
  unfold App.private_panel, App.on_private_message. split.
  - apply list_elem_of_filter. simpl. split; [by split; [right|]|].
    apply elem_of_app. right. by left.
  - intros other Hother. rewrite list_elem_of_filter. simpl. split.
    + by intros [[[?|?] _] _].
    + intros Hsel. split; [by split; [left|]|].
      apply elem_of_app. right. by left.
Qed.

(** ** What the client emits *)

(** [handleSend] emits nothing exactly when the text box is blank after
    trimming and no file is selected.  Otherwise it emits one message
    event, private when a user is selected, then [typing(false)]; the
    payload carries the text as typed under [text], never a [message]
    field, and an empty [image] when no file was selected or the upload
    failed, so a failed upload does not stop the send. *)
Theorem handleSend_emits_one_message input file upload selectedUser :
  let emitted := Client.handleSend input file upload selectedUser in
  (emitted = [] ↔ Client.trim input = "" ∧ file = None) ∧
  (emitted ≠ [] →
   ∃ data,
     emitted = [ match selectedUser with
                 | Some _ => private_message data
                 | None => send_message data
                 end; typing false ] ∧
     data !! "text" = Some input ∧
     data !! "message" = None ∧
     data !! "to" = User.id <$> selectedUser ∧
     (file = None ∨ upload = None → data !! "image" = Some "")).
Proof.
  intros emitted. subst emitted. unfold Client.handleSend.
  destruct (bool_decide (Client.trim input = "") && bool_decide (file = None))
    eqn:Hguard.
  - apply andb_true_iff in Hguard as [H1%bool_decide_eq_true
                                        H2%bool_decide_eq_true].
    split; [done|]. by intros [].
  - split.
    { split; [done|]. intros [H1 H2].
      by rewrite !bool_decide_eq_true_2 in Hguard. }
    intros _.
    destruct file as [f|], upload as [[url|]|], selectedUser as [u|];
      eexists; (split; [reflexivity|]); split_and!;
      try (by simplify_map_eq);
      try (intros [?|?]; by simplify_map_eq).
Qed.

(** [joinChat] emits nothing for a name that is blank after trimming and
    leaves [joined] as it was, so the server's stores do not change.
    For any other name it sets [joined] and emits one [user_join], upon
    which the server registers the name as typed, untrimmed. *)
Theorem joinChat_refuses_blank_names username room joined sid clk s :
  let r := App.joinChat username room joined in
  let s' := (run ((λ ev, (sid, clk, ev)) <$> r.1) s).1 in
  (Client.trim username = "" → r = ([], joined) ∧ s' = s) ∧
  (Client.trim username ≠ "" →
   r = ([user_join username room], true) ∧
   JsObject.get (users s') sid = Some (User.mk username room sid)).
Proof.
  intros r s'. subst s' r. unfold App.joinChat. split; intros Hname.
  - by rewrite bool_decide_eq_true_2.
  - rewrite bool_decide_eq_false_2 by done. split; [done|].
    simpl. apply get_set_eq.
Qed.



(** A reaction makes the clients of the room treat the message as new:
    the broadcast is a [receive_message], so every client but the
    original sender's plays the sound and, when notifications are
    granted, announces a new message from that sender, with the text or
    'Sent a file' as body. *)
Theorem reaction_notifies_like_a_new_message s sid clk messageId emoji i msg
    self granted prev :
  find_message messageId (messages s) = Some (i, msg) →
  Msg.senderId msg ≠ self →
  ∃ msg',
    (handle sid clk (message_reaction messageId emoji) s).2
    = [ io_to_emit (Msg.room msg) (Out.receive_message msg') ] ∧
    (App.on_receive_message self granted msg' prev).2
    = App.playSound
      :: (if granted
          then [ App.notification ("💬 New message from " +:+ Msg.sender msg)
                   (if decide (Msg.text msg = "") then "Sent a file"
                    else Msg.text msg) ]
          else []).
Proof.
  intros Hf Hself. exists (add_reaction emoji msg).
  rewrite (reaction_found _ _ _ _ _ _ _ Hf). split; [done|].
  destruct (add_reaction_with emoji msg) as [r ->].
  unfold App.on_receive_message. simpl. by rewrite decide_True.
Qed.

Lemma reaction_notifies_like_a_new_message_witness :
  find_message 1000 (messages Seen.store) = Some (0%nat, Reactions.sent) ∧
  Msg.senderId Reactions.sent ≠ "b1" ∧
  (App.on_receive_message "b1" true (add_reaction "👍" Reactions.sent) []).2
  = [ App.playSound; App.notification "💬 New message from alice" "hi" ].
Proof.
  split; [reflexivity|]. split; [discriminate|].
  destruct (reaction_notifies_like_a_new_message Seen.store "a1"
              (Scenario.at_ 1001) 1000 "👍" 0 Reactions.sent "b1" true []
              eq_refl ltac:(discriminate)) as (msg' & Hout & Heff).
  injection Hout as <-. exact Heff.
Defined.

(** A send from the client clears the sender's typing entry: whenever
    [handleSend] emits, the server has no typing entry for the socket
    once it has handled the emitted events, and [users] is as before. *)
Theorem sending_clears_typing input file upload selectedUser sid clk s user :
  JsObject.get (users s) sid = Some user →
  Client.handleSend input file upload selectedUser ≠ [] →
  let emitted := Client.handleSend input file upload selectedUser in
  let s' := (run ((λ ev, (sid, clk, ev)) <$> emitted) s).1 in
  users s' = users s ∧
  JsObject.get (typingUsers s') sid = None ∧
  (∀ k, k ≠ sid →
        JsObject.get (typingUsers s') k = JsObject.get (typingUsers s) k).
Proof.
  intros Hu Hemit emitted s'. subst s' emitted. revert Hemit.
  unfold Client.handleSend. case_match; [done|]. intros _.
  rewrite !fmap_cons. simpl. unfold step. simpl.
  destruct selectedUser as [u|]; simpl.
  - unfold on_typing. rewrite Hu. simpl.
    split_and!; [done|apply get_delete_eq|].
    intros k Hk. by apply get_delete_ne.
  - unfold on_send_message. rewrite Hu. simpl. unfold on_typing. simpl.
    rewrite Hu. simpl. split_and!; [done|apply get_delete_eq|].
    intros k Hk. by apply get_delete_ne.
Qed.

Lemma sending_clears_typing_witness :
  JsObject.get (users Typing.store) "a1"
  = Some (User.mk "alice" "General" "a1") ∧
  Client.handleSend "hello" None None None ≠ [] ∧
  JsObject.get (typingUsers Typing.store) "a1" = Some "alice" ∧
  let s' := (run ((λ ev, ("a1", Scenario.at_ 1000, ev))
                    <$> Client.handleSend "hello" None None None)
               Typing.store).1 in
  JsObject.get (typingUsers s') "a1" = None.
Proof.
  split; [reflexivity|]. split; [discriminate|]. split; [reflexivity|].
  exact (proj1 (proj2 (sending_clears_typing "hello" None None None "a1"
                         (Scenario.at_ 1000) Typing.store
                         (User.mk "alice" "General" "a1") eq_refl
                         ltac:(discriminate)))).
Defined.

(** Once the server has handled the events of the client's seen effect,
    every shown message of the room that another socket sent, if its id
    still finds a stored message, finds one whose [seenBy] holds the
    user's name. *)
Theorem seen_effect_marks_all self room shown clk s user m i msg :
  JsObject.get (users s) self = Some user →
  m ∈ shown → Msg.room m = room → Msg.senderId m ≠ self →
  let arrivals := (λ ev, (self, clk, ev)) <$> App.seen_effect self room shown in
  let s1 := (run arrivals s).1 in
  find_message (Msg.id m) (messages s1) = Some (i, msg) →
  users s1 = users s ∧ User.username user ∈ Msg.seenBy msg.
Proof.
  intros Hu Hm Hroom Hself arrivals s1 Hf. subst s1 arrivals.
  revert Hf. unfold App.seen_effect.
  set (ids := Msg.id <$> filter (λ m, Msg.room m = room ∧ Msg.senderId m ≠ self)
                           shown).
  assert ((λ ev : inbound, (self, clk, ev))
            <$> ((λ m, message_seen (Msg.id m))
                   <$> filter (λ m, Msg.room m = room ∧ Msg.senderId m ≠ self)
                         shown)
          = (λ messageId, (self, clk, message_seen messageId)) <$> ids)
    as -> by (subst ids; by rewrite <-!list_fmap_compose).
  assert (Msg.id m ∈ ids) as Hin.
  { subst ids. apply list_elem_of_fmap_2. by apply list_elem_of_filter. }
  assert (∀ l s0, users (run ((λ messageId, (self, clk, message_seen messageId))
                                <$> l) s0).1 = users s0) as Husers.
  { induction l as [|x l IH]; intros s0; [done|].
    rewrite fmap_cons. simpl. rewrite IH. unfold step. simpl.
    unfold on_message_seen. destruct (JsObject.get (users s0) self); [|done].
    destruct (find_message x (messages s0)) as [[??]|]; [|done].
    by case_decide. }
  intros Hf. split; [apply Husers|].
  pose proof (run_seen_settles self clk clk ids s (Msg.id m) Hin) as Hnoop.
  simpl in Hnoop.
  apply (seen_noop self clk) in Hnoop
    as [Hnone|[Hnone|(u & j & m' & Hu' & Hf' & Hseen)]].
  - rewrite Husers in Hnone. congruence.
  - congruence.
  - rewrite Husers in Hu'. congruence.
Qed.

Lemma seen_effect_marks_all_witness :
  let s1 := (run ((λ ev, ("b1", Scenario.at_ 1001, ev))
                    <$> App.seen_effect "b1" "General" [Reactions.sent])
               Seen.store).1 in
  JsObject.get (users Seen.store) "b1" = Some (User.mk "bob" "General" "b1") ∧
  Reactions.sent ∈ [Reactions.sent] ∧
  Msg.senderId Reactions.sent ≠ "b1" ∧
  find_message 1000 (messages s1)
  = Some (0%nat, add_seenBy "bob" Reactions.sent) ∧
  "bob" ∈ Msg.seenBy (add_seenBy "bob" Reactions.sent).
Proof.
  assert (Reactions.sent ∈ [Reactions.sent]) as Hin by left.
  split; [reflexivity|]. split; [exact Hin|]. split; [discriminate|].
  split; [reflexivity|].
  exact (proj2 (seen_effect_marks_all "b1" "General" [Reactions.sent]
                  (Scenario.at_ 1001) Seen.store
                  (User.mk "bob" "General" "b1") Reactions.sent 0
                  (add_seenBy "bob" Reactions.sent) eq_refl Hin eq_refl
                  ltac:(discriminate) eq_refl)).
Defined.
